(** * wishbone: the sphincter door daemon (main.go)

    A shallow embedding of [main.go]: the RFID token framer
    ([getRFIDToken]), the token check ([isValid] and the reader loop of
    [main]), the door status monitor ([updateSphincterStatus]), the
    command executor ([setupSphincterCmdChannel]) and the HTTP handler
    registered on [/sphincter], followed by the properties of the
    specification that were checked against them.

    Conventions.  A Go [string] is a [string] (a sequence of 8-bit
    characters), a [[]byte] a [list ascii]; [time.Time] and
    [time.Duration] are integers counting nanoseconds; a GPIO pin is its
    BCM number.  What the program asks of its environment (the serial
    port, the clock, the sensor lines, the HTTP server) is an explicit
    argument of the definitions. *)

From Stdlib Require Import ZArith List Ascii String Bool Lia.
From stdpp Require Import base strings gmap list pretty.
Import ListNotations.

Open Scope string_scope.
Open Scope list_scope.
Open Scope Z_scope.

(* ================================================================== *)
(** * Go library functions used by the program *)
(* ================================================================== *)

Module GoStrings.

(** [strings.HasPrefix]. *)
Fixpoint HasPrefix (s prefix : string) : bool :=
  match prefix with
  | EmptyString => true
  | String c prefix' =>
      match s with
      | EmptyString => false
      | String d s' => Ascii.eqb c d && HasPrefix s' prefix'
      end
  end.

(** [s[n:]], clipped at the end of [s]. *)
Fixpoint drop (n : nat) (s : string) : string :=
  match n, s with
  | O, _ => s
  | S _, EmptyString => EmptyString
  | S n', String _ s' => drop n' s'
  end.

(** The scan of [strings.Replace(s, old, new, -1)] for a non-empty
    [old]: left to right, every non-overlapping occurrence of [old]
    becomes [new].  [fuel] bounds the number of scan steps. *)
Fixpoint replace_scan (fuel : nat) (s old new : string) : string :=
  match fuel with
  | O => s
  | S fuel' =>
      match s with
      | EmptyString => EmptyString
      | String c s' =>
          if HasPrefix s old
          then new +:+ replace_scan fuel' (drop (String.length old) s) old new
          else String c (replace_scan fuel' s' old new)
      end
  end.

(** With an empty [old], Go inserts [new] in front of every character
    and at the end (characters being bytes here). *)
Fixpoint insert_around (s new : string) : string :=
  match s with
  | EmptyString => new
  | String c s' => new +:+ String c (insert_around s' new)
  end.

(** [strings.ReplaceAll(s, old, new)], which Go defines as
    [strings.Replace(s, old, new, -1)]. *)
Definition ReplaceAll (s old new : string) : string :=
  match old with
  | EmptyString => insert_around s new
  | String _ _ => replace_scan (String.length s) s old new
  end.

(** Deleting every occurrence of one byte, the only use the program
    makes of [ReplaceAll]. *)
Fixpoint remove_byte (c : ascii) (s : string) : string :=
  match s with
  | EmptyString => EmptyString
  | String d s' =>
      if Ascii.eqb c d then remove_byte c s' else String d (remove_byte c s')
  end.

(** [c] occurs in [s]. *)
Fixpoint contains_byte (c : ascii) (s : string) : bool :=
  match s with
  | EmptyString => false
  | String d s' => Ascii.eqb c d || contains_byte c s'
  end.

End GoStrings.

(* ================================================================== *)
(** * Token Validator: [isValid] *)
(* ================================================================== *)

(** [// If token only contains 0 and/or F's, its not a valid token] *)
Definition isValid (token : string) : bool :=
  let token := GoStrings.ReplaceAll token "F" "" in
  let token := GoStrings.ReplaceAll token "0" "" in
  (0 <? String.length token)%nat.

(** A token made of the characters ['0'] and ['F'] only. *)
Fixpoint only_0F (token : string) : bool :=
  match token with
  | EmptyString => true
  | String c token' =>
      (Ascii.eqb c "0"%char || Ascii.eqb c "F"%char) && only_0F token'
  end.

(* ================================================================== *)
(** * The list of users: [parseUserList] *)
(* ================================================================== *)

Module UserList.

Definition LF : ascii := "010"%char.

(** White space among the bytes below 0x80: what [strings.Fields] splits
    at when the text is ASCII.  (On text with a byte of 0x80 or more Go
    decodes UTF-8 and asks [unicode.IsSpace], which also knows U+0085,
    U+00A0 and others; that path is not modelled, and the properties
    that depend on it are stated for ASCII text.) *)
Definition isSpace (c : ascii) : bool :=
  (Ascii.eqb c "009" || Ascii.eqb c "010" || Ascii.eqb c "011" ||
   Ascii.eqb c "012" || Ascii.eqb c "013" || Ascii.eqb c " ")%char.

(** [strings.Split(s, sep)] for a one-byte [sep]; [cur] is the piece
    being read. *)
Fixpoint split_from (sep : ascii) (cur s : string) : list string :=
  match s with
  | EmptyString => [cur]
  | String c s' =>
      if Ascii.eqb c sep then cur :: split_from sep EmptyString s'
      else split_from sep (cur +:+ String c EmptyString) s'
  end.

Definition Split (s : string) (sep : ascii) : list string :=
  split_from sep EmptyString s.

(** [strings.Fields(s)] for [s] without a byte of 0x80 or more: the
    maximal runs of characters that are not white space. *)
Fixpoint fields_from (cur s : string) : list string :=
  match s with
  | EmptyString =>
      match cur with
      | EmptyString => []
      | String _ _ => [cur]
      end
  | String c s' =>
      if isSpace c then
        match cur with
        | EmptyString => fields_from EmptyString s'
        | String _ _ => cur :: fields_from EmptyString s'
        end
      else fields_from (cur +:+ String c EmptyString) s'
  end.

Definition Fields (s : string) : list string := fields_from EmptyString s.

(** [strings.Join(elems, sep)]. *)
Fixpoint Join (elems : list string) (sep : string) : string :=
  match elems with
  | [] => EmptyString
  | [e] => e
  | e :: elems' => e +:+ sep +:+ Join elems' sep
  end.

(** [parseUserList] on the content of the list file, once
    [ioutil.ReadFile] has returned it: a line with more than one field
    maps its first field to the others, joined by one space; a later
    line for the same token replaces an earlier one. *)
Definition parseUserList (bytes : string) : gmap string string :=
  fold_left
    (fun (users : gmap string string) (line : string) =>
       let fields := Fields line in
       if (1 <? length fields)%nat
       then match fields with
            | key :: rest => <[ key := Join rest " " ]> users
            | [] => users
            end
       else users)
    (Split bytes LF) ∅.

End UserList.

(* ================================================================== *)
(** * Token Framer: [getRFIDToken] *)
(* ================================================================== *)

Module Framer.

(** What one [Read] on the serial port returned: the bytes it
    delivered, or an error (go.bug.st/serial returns one or the
    other).  The port is given by the results of its successive
    [Read] calls; when the list is used up the next [Read] blocks. *)
Inductive ReadResult :=
| ReadData (p : list ascii)
| ReadError (err : string).

Definition STX : ascii := "002"%char.
Definition ETX : ascii := "003"%char.

(** [io.ErrNoProgress]. *)
Definition ErrNoProgress : string := "multiple Read calls return no data or error".

(** [bufio]'s [maxConsecutiveEmptyReads]. *)
Definition maxConsecutiveEmptyReads : nat := 100.

(** The bytes of [p] up to and including the first [delim], when [p]
    holds one. *)
Fixpoint through_delim (delim : ascii) (p : list ascii) : option (list ascii) :=
  match p with
  | [] => None
  | b :: p' =>
      if Ascii.eqb b delim then Some [b]
      else match through_delim delim p' with
           | Some line => Some (b :: line)
           | None => None
           end
  end.

(** The outcome of [rd.ReadBytes(delim)]. *)
Inductive ReadBytesResult :=
| Line (res : list ascii) (rest : list ReadResult)
| Failed (err : string) (rest : list ReadResult)
| Waiting.

(** [bufio.Reader.ReadBytes] on a reader that was just created over
    the port: the reader fills its buffer with one [Read] at a time
    until the buffer holds [delim], and returns the bytes through
    [delim].  [acc] is what was read so far, [empties] the number of
    [Read]s in a row that returned no byte.  The bytes the last
    [Read] delivered after [delim] stay in the reader's buffer. *)
Fixpoint ReadBytes (delim : ascii) (acc : list ascii) (empties : nat)
    (port : list ReadResult) : ReadBytesResult :=
  match port with
  | [] => Waiting
  | ReadError err :: rest => Failed err rest
  | ReadData p :: rest =>
      match through_delim delim p with
      | Some line => Line (acc ++ line) rest
      | None =>
          match p with
          | [] =>
              if (maxConsecutiveEmptyReads <=? S empties)%nat
              then Failed ErrNoProgress rest
              else ReadBytes delim acc (S empties) rest
          | _ :: _ => ReadBytes delim (acc ++ p) O rest
          end
      end
  end.

(** The string sent for the bytes [res] that [ReadBytes] returned (lines
    54 and 55): both framing bytes deleted. *)
Definition token_of (res : list ascii) : string :=
  let s := GoStrings.ReplaceAll (string_of_list_ascii res) (String ETX "") "" in
  GoStrings.ReplaceAll s (String STX "") "".

(** How the framer goroutine ends on a finite list of [Read] results:
    blocked in the next [Read], or [panic(err)]. *)
Inductive Stop :=
| Blocked
| Panicked (err : string)
| OutOfFuel.

(** The goroutine of [getRFIDToken]: the strings it sends on the
    channel, in order, and how it stops.
<<
    for {
      rd := bufio.NewReader( *port)
      res, err := rd.ReadBytes('\x03')
      if err != nil { panic(err) }
      s := strings.Replace(string(res), "\x03", "", -1)
      s = strings.Replace(s, "\x02", "", -1)
      c <- s
    }
>>
    Each turn creates its own reader, so what the previous reader had
    buffered after the delimiter is gone. *)
Fixpoint framer_loop (fuel : nat) (port : list ReadResult) : list string * Stop :=
  match fuel with
  | O => ([], OutOfFuel)
  | S fuel' =>
      match ReadBytes ETX [] O port with
      | Waiting => ([], Blocked)
      | Failed err _ => ([], Panicked err)
      | Line res rest =>
          let s := GoStrings.ReplaceAll (string_of_list_ascii res) (String ETX "") "" in
          let s := GoStrings.ReplaceAll s (String STX "") "" in
          let '(sent, stop) := framer_loop fuel' rest in
          (s :: sent, stop)
      end
  end.

Definition getRFIDToken (port : list ReadResult) : list string * Stop :=
  framer_loop (S (length port)) port.

(** One frame of the reader: start byte, payload, end byte. *)
Definition frame (payload : list ascii) : list ascii :=
  STX :: payload ++ [ETX].

(** A payload holds no framing byte. *)
Definition clean (payload : list ascii) : Prop :=
  ~ In STX payload /\ ~ In ETX payload.

(** The [Read]s [reads] deliver the frame of [payload] and nothing
    else: each returns at least one byte, and together they return the
    frame, so the end byte is the last byte of the last of them. *)
Definition delivers (payload : list ascii) (reads : list (list ascii)) : Prop :=
  concat reads = frame payload /\ Forall (fun p => p <> []) reads.

(** The port when frame after frame is delivered that way. *)
Definition port_of (frames : list (list ascii * list (list ascii)))
    : list ReadResult :=
  map ReadData (concat (map snd frames)).

End Framer.

(* ================================================================== *)
(** * GPIO, time and the observable operations *)
(* ================================================================== *)

Module rpio.

(** [rpio.Pin], a BCM pin number. *)
Definition Pin : Type := Z.

(** [rpio.State]. *)
Inductive State := Low | High.

Definition State_eqb (a b : State) : bool :=
  match a, b with
  | Low, Low | High, High => true
  | _, _ => false
  end.

End rpio.

Definition OpenPin : rpio.Pin := 22.
Definition ClosePin : rpio.Pin := 27.
Definition StatusPin0 : rpio.Pin := 4.
Definition StatusPin1 : rpio.Pin := 17.

Module time.

(** [time.Duration]: nanoseconds. *)
Definition Second : Z := 1000000000.
Definition maxDuration : Z := 2 ^ 63 - 1.
Definition minDuration : Z := - 2 ^ 63.

(** The zero [time.Time] (January 1, year 1, UTC), in nanoseconds
    relative to the Unix epoch; the initial value of
    [latestTimestamp]. *)
Definition zeroTime : Z := -62135596800 * Second.

(** [t.Sub(u)]: the difference, saturated to the range of
    [Duration]. *)
Definition Sub (t u : Z) : Z := Z.max minDuration (Z.min maxDuration (t - u)).

End time.

(** [type SphincterStatus int] and its constants. *)
Definition UNKNOWN : Z := 0.
Definition LOCKED : Z := 1.
Definition UNLOCKED : Z := 2.
Definition FAILURE : Z := 3.

(** An HTTP request, as far as the handler looks at it: [r.Method] and
    [r.URL.Query().Get("action")]. *)
Record Request := { Method : string; action : string }.

(** What a goroutine does to the outside, one operation at a time. *)
Inductive Op :=
| PinHigh (p : rpio.Pin)        (* p.High() *)
| PinLow (p : rpio.Pin)         (* p.Low() *)
| Sleep (d : Z)                 (* time.Sleep(d) *)
| Fprint (s : string)           (* fmt.Fprint(w, s) *)
| Log (s : string)              (* log.Println, log.Printf *)
| LogRequest (r : Request).     (* log.Println(r) *)

Definition is_pin_op (o : Op) : bool :=
  match o with
  | PinHigh _ | PinLow _ => true
  | _ => false
  end.

(** The state the operations act on: the clock, the level of every
    pin, the global [latestTimestamp], and the operations done so far
    with the time each one started. *)
Record World := mkWorld {
  now : Z;
  level : rpio.Pin -> rpio.State;
  latestTimestamp : Z;
  trace : list (Z * Op)
}.

Definition set_level (p : rpio.Pin) (l : rpio.State) (f : rpio.Pin -> rpio.State)
    : rpio.Pin -> rpio.State :=
  fun q => if q =? p then l else f q.

(** One operation.  [time.Sleep(d)] is taken to last exactly [d]; the
    other operations take no time. *)
Definition exec_op (w : World) (o : Op) : World :=
  let tr := trace w ++ [(now w, o)] in
  match o with
  | PinHigh p => mkWorld (now w) (set_level p rpio.High (level w)) (latestTimestamp w) tr
  | PinLow p => mkWorld (now w) (set_level p rpio.Low (level w)) (latestTimestamp w) tr
  | Sleep d => mkWorld (now w + d) (level w) (latestTimestamp w) tr
  | Fprint _ | Log _ | LogRequest _ => mkWorld (now w) (level w) (latestTimestamp w) tr
  end.

Definition run (ops : list Op) (w : World) : World := fold_left exec_op ops w.

(** The worlds a run goes through, one after each operation. *)
Fixpoint run_states (ops : list Op) (w : World) : list World :=
  match ops with
  | [] => []
  | o :: ops' => exec_op w o :: run_states ops' (exec_op w o)
  end.

(** The operations on pins of a timed trace. *)
Definition pin_ops (tr : list (Z * Op)) : list (Z * Op) :=
  List.filter (fun e => is_pin_op (snd e)) tr.

(** The responses written by a list of operations. *)
Fixpoint responses (ops : list Op) : list string :=
  match ops with
  | [] => []
  | Fprint s :: ops' => s :: responses ops'
  | _ :: ops' => responses ops'
  end.

(* ================================================================== *)
(** * Door Status Monitor: [updateSphincterStatus] *)
(* ================================================================== *)

Module Monitor.

(** The state the function threads: how many [Read]s were made so
    far, and the global [sphincterStatus]. *)
Record Mon := mkMon { reads : nat; sphincterStatus : Z }.

Definition M (A : Type) : Type := Mon -> A * Mon.

Definition ret {A} (a : A) : M A := fun s => (a, s).

Definition bind {A B} (m : M A) (k : A -> M B) : M B :=
  fun s => let '(a, s') := m s in k a s'.

Declare Scope mon_scope.
Delimit Scope mon_scope with mon.
Notation "x <- m ;; k" := (bind m (fun x => k))
  (at level 100, m at next level, right associativity) : mon_scope.
Notation "m ;; k" := (bind m (fun _ => k))
  (at level 100, right associativity) : mon_scope.
Local Open Scope mon_scope.

Section WithSensor.

(** The sensor lines: [sensor k p] is the level the [k]-th [Read]
    of the process finds on pin [p]. *)
Variable sensor : nat -> rpio.Pin -> rpio.State.

(** [p.Read()]. *)
Definition Read (p : rpio.Pin) : M rpio.State :=
  fun s => (sensor (reads s) p, mkMon (S (reads s)) (sphincterStatus s)).

Definition set_status (v : Z) : M unit :=
  fun s => (tt, mkMon (reads s) v).

Definition get_status : M Z := fun s => (sphincterStatus s, s).

(** [p.Read() == l]. *)
Definition reads_as (p : rpio.Pin) (l : rpio.State) : M bool :=
  v <- Read p ;; ret (rpio.State_eqb v l).

(** [a && b]: [b] is evaluated only when [a] holds. *)
Definition and_then (a b : M bool) : M bool :=
  x <- a ;; if x then b else ret false.

(** [if c { body }]. *)
Definition when (c : M bool) (body : M unit) : M unit :=
  x <- c ;; if x then body else ret tt.

Definition updateSphincterStatus : M Z :=
  when (and_then (reads_as StatusPin0 rpio.Low) (reads_as StatusPin1 rpio.Low))
       (set_status UNKNOWN) ;;
  when (and_then (reads_as StatusPin0 rpio.High) (reads_as StatusPin1 rpio.High))
       (set_status FAILURE) ;;
  when (and_then (reads_as StatusPin0 rpio.High) (reads_as StatusPin1 rpio.Low))
       (set_status UNLOCKED) ;;
  when (and_then (reads_as StatusPin0 rpio.Low) (reads_as StatusPin1 rpio.High))
       (set_status LOCKED) ;;
  get_status.

End WithSensor.

(** The mapping of section 3 of the specification. *)
Definition status_of (p0 p1 : rpio.State) : Z :=
  match p0, p1 with
  | rpio.Low, rpio.Low => UNKNOWN
  | rpio.High, rpio.High => FAILURE
  | rpio.High, rpio.Low => UNLOCKED
  | rpio.Low, rpio.High => LOCKED
  end.

(** Sensor lines that hold the levels [p0] and [p1] during the eight
    [Read]s that follow the [k]-th. *)
Definition stable (sensor : nat -> rpio.Pin -> rpio.State) (k : nat)
    (p0 p1 : rpio.State) : Prop :=
  forall i, (i < 8)%nat ->
    sensor (k + i)%nat StatusPin0 = p0 /\ sensor (k + i)%nat StatusPin1 = p1.

(** Lines that never change. *)
Definition steady (p0 p1 : rpio.State) : nat -> rpio.Pin -> rpio.State :=
  fun _ p => if p =? StatusPin0 then p0 else p1.

(** The name of a status, as the handler's responses spell it. *)
Definition status_text (v : Z) : string :=
  if v =? LOCKED then "LOCKED"
  else if v =? UNLOCKED then "UNLOCKED"
  else if v =? FAILURE then "FAILURE"
  else "UNKNOWN".

End Monitor.

(* ================================================================== *)
(** * Actuation: the command executor and the HTTP handler *)
(* ================================================================== *)

(** The body of the loop of [setupSphincterCmdChannel], for one command
    received on [CmdChan].  [log.Println("cmd: %s", cmd)] prints its
    arguments side by side. *)
Definition sphincterCmd (cmd : string) : list Op :=
  Log ("cmd: %s " +:+ cmd) ::
  if String.eqb cmd "open" then
    [PinHigh OpenPin; Sleep (1 * time.Second); PinLow OpenPin]
  else if String.eqb cmd "close" then
    [PinHigh ClosePin; Sleep (1 * time.Second); PinLow ClosePin]
  else
    [Log "unknown cmd received on CmdChan"].

(** The goroutine [setupSphincterCmdChannel] starts: one command after
    the other, as they come out of [CmdChan]. *)
Definition executor (cmds : list string) : list Op := flat_map sphincterCmd cmds.

(** The function registered with [http.HandleFunc("/sphincter", ...)]. *)
Definition handler (r : Request) : list Op :=
  LogRequest r ::
  if negb (String.eqb (Method r) "GET") then
    [Log "Ignoring non-GET request."]
  else if String.eqb (action r) "state" then
    [Fprint "UNLOCKED"]
  else if String.eqb (action r) "unlock" then
    [PinHigh OpenPin; Sleep (1 * time.Second); PinLow OpenPin; Fprint "UNLOCKED"]
  else if String.eqb (action r) "lock" then
    [Fprint "LOCKED"]
  else
    [Fprint "action parameter must be one of status, lock or unlock"].

(* ================================================================== *)
(** * The reader loop of [main] *)
(* ================================================================== *)

(** A token coming out of the framer's channel, and the time at which
    it is there to be received. *)
Record Arrival := { a_msg : string; a_time : Z }.

(** [msg := <-c]: the loop waits for the token. *)
Definition recv (a : Arrival) (w : World) : World :=
  mkWorld (Z.max (now w) (a_time a)) (level w) (latestTimestamp w) (trace w).

(** The three ways lines 204 to 215 treat a token: found in [users];
    not found and [isValid]; not found and not [isValid]. *)
Inductive Verdict :=
| Authorized (owner : string)
| Unauthorized
| Malformed.

Definition validate (users : gmap string string) (msg : string) : Verdict :=
  match users !! msg with
  | Some username => Authorized username
  | None => if isValid msg then Unauthorized else Malformed
  end.

(** One turn of [for msg := range getRFIDToken(&port)]. *)
Definition reader_iteration (users : gmap string string) (w : World) (a : Arrival)
    : World :=
  let w := recv a w in
  if time.Sub (now w) (latestTimestamp w) <? 5 * time.Second then
    run [Log "Triggered too fast; skipped unlock"] w
  else
    match validate users (a_msg a) with
    | Authorized username =>
        let w := mkWorld (now w) (level w) (now w) (trace w) in
        run [Log ("Hello " +:+ a_msg a +:+ " " +:+ username);
             PinHigh OpenPin; Sleep (1 * time.Second); PinLow OpenPin] w
    | Unauthorized => run [Log ("Could not find key " +:+ a_msg a)] w
    | Malformed => w
    end.

Definition reader_loop (users : gmap string string) (arrivals : list Arrival)
    (w : World) : World :=
  fold_left (reader_iteration users) arrivals w.

(** What a turn added to the trace. *)
Definition added (w w' : World) : list (Z * Op) :=
  skipn (length (trace w)) (trace w').

(* ================================================================== *)
(** * [main] *)
(* ================================================================== *)

Inductive Goroutine :=
| GFramer               (* started by getRFIDToken *)
| GExecutor.            (* started by setupSphincterCmdChannel *)

(** [http.ListenAndServe] either keeps serving, and then never returns,
    or returns the error that stopped it. *)
Inductive ListenOutcome :=
| Serving
| ListenFailed (err : string).

(** What [main] gets from outside. *)
Record Env := {
  e_rpio_open : option string;               (* the error of rpio.Open() *)
  e_users : string + gmap string string;     (* parseUserList(): error, or users *)
  e_serial_open : option string;             (* the error of serial.Open() *)
  e_listen : ListenOutcome;
  e_port : list Framer.ReadResult;
  e_arrival : nat -> Z;                      (* when the k-th token is there *)
  e_start : Z;                               (* the clock when the loop starts *)
  e_level : rpio.Pin -> rpio.State           (* the pins at that time *)
}.

(** What the main goroutine does, in order. *)
Inductive MainEvent :=
| MLog (s : string)
| MFatal (err : string)                   (* log.Fatal(err): the process exits *)
| MPinMode (p : rpio.Pin) (output : bool) (* p.Output(), p.Input() *)
| MHandleFunc (pattern : string)
| MListenAndServe (addr : string)         (* the call *)
| MListenReturned (err : string)          (* its return *)
| MGo (g : Goroutine)                     (* a go statement *)
| MReader (t : Z) (o : Op)                (* an operation of the reader loop *)
| MPanic (err : string).                  (* the framer's panic(err) *)

Definition is_reader_event (e : MainEvent) : bool :=
  match e with
  | MGo GFramer | MReader _ _ | MPanic _ => true
  | _ => false
  end.

(** [setupSphincterCmdChannel()]: it starts the executor. *)
Definition setupSphincterCmdChannel : list MainEvent := [MGo GExecutor].

(** The loop at the end of [main], fed by the framer.  The framer's
    panic is put after the operations on the tokens it had sent. *)
Definition reader_events (env : Env) (users : gmap string string) : list MainEvent :=
  let '(tokens, stop) := Framer.getRFIDToken (e_port env) in
  let arrivals := imap (fun k msg => Build_Arrival msg (e_arrival env k)) tokens in
  let w := reader_loop users arrivals
             (mkWorld (e_start env) (e_level env) time.zeroTime []) in
  MGo GFramer ::
  map (fun e => MReader (fst e) (snd e)) (trace w) ++
  match stop with
  | Framer.Panicked err => [MPanic err]
  | _ => []
  end.

Definition main (env : Env) : list MainEvent :=
  [MLog " :: Starting sphincter rfid token..."; MLog " :::: Opening GPIO"] ++
  match e_rpio_open env with
  | Some err => [MFatal err]
  | None =>
      [MPinMode OpenPin true; MPinMode ClosePin true;
       MPinMode StatusPin0 false; MPinMode StatusPin1 false;
       MLog " :::: Reading list.txt"] ++
      match e_users env with
      | inl err => [MFatal err]
      | inr users =>
          [MLog (" :::: Found " +:+ pretty (size users) +:+ " users ");
           MLog " :::: Connecting to Serial"] ++
          match e_serial_open env with
          | Some err => [MFatal err]
          | None =>
              [MLog " :::: Setting up webserver";
               MHandleFunc "/sphincter";
               MListenAndServe ":8001"] ++
              match e_listen env with
              | Serving => []
              | ListenFailed err =>
                  [MListenReturned err; MLog " :: Initialized!"] ++
                  reader_events env users
              end
          end
      end
  end.

(* ================================================================== *)
(** * Goroutines running side by side *)
(* ================================================================== *)

(** [net/http] serves every request in a goroutine of its own, so the
    handlers of requests in flight run interleaved.  A schedule names,
    step by step, the goroutine that does its next operation; the
    result is the operations in the order they happen, each with the
    index of its goroutine. *)
Fixpoint run_schedule (threads : list (list Op)) (sched : list nat)
    : list (nat * Op) :=
  match sched with
  | [] => []
  | i :: sched' =>
      match threads !! i with
      | Some (o :: prog) => (i, o) :: run_schedule (<[i := prog]> threads) sched'
      | _ => run_schedule threads sched'
      end
  end.

(** The goroutines serving the requests [reqs]. *)
Definition serve (reqs : list Request) : list (list Op) := map handler reqs.

(** A pulse on [p] begins while another goroutine's pulse on [p] is not
    over: [inflight] lists the goroutines that drove [p] High and have
    not yet driven it Low. *)
Fixpoint overlapping (p : rpio.Pin) (inflight : list nat) (tr : list (nat * Op))
    : bool :=
  match tr with
  | [] => false
  | (i, PinHigh q) :: tr' =>
      if q =? p
      then negb (forallb (Nat.eqb i) inflight) || overlapping p (i :: inflight) tr'
      else overlapping p inflight tr'
  | (i, PinLow q) :: tr' =>
      if q =? p
      then overlapping p (List.filter (fun j => negb (Nat.eqb j i)) inflight) tr'
      else overlapping p inflight tr'
  | _ :: tr' => overlapping p inflight tr'
  end.

(** The level of [p] after each operation of an interleaved run. *)
Fixpoint levels_of (p : rpio.Pin) (l : rpio.State) (tr : list (nat * Op))
    : list rpio.State :=
  match tr with
  | [] => []
  | (_, PinHigh q) :: tr' =>
      let l' := if q =? p then rpio.High else l in l' :: levels_of p l' tr'
  | (_, PinLow q) :: tr' =>
      let l' := if q =? p then rpio.Low else l in l' :: levels_of p l' tr'
  | _ :: tr' => l :: levels_of p l tr'
  end.

Definition pin_events (tr : list (nat * Op)) : list (nat * Op) :=
  List.filter (fun e => is_pin_op (snd e)) tr.

(* ================================================================== *)
(** * Notions used to state further properties *)
(* ================================================================== *)

(** No character of [s] is white space. *)
Fixpoint no_space (s : string) : bool :=
  match s with
  | EmptyString => true
  | String c s' => negb (UserList.isSpace c) && no_space s'
  end.

(** Every byte of [s] is below 0x80. *)
Fixpoint ascii_only (s : string) : bool :=
  match s with
  | EmptyString => true
  | String c s' => (nat_of_ascii c <? 128)%nat && ascii_only s'
  end.

(** What [strings.Fields] returns pieces of: non-empty, free of white
    space. *)
Definition is_field (s : string) : Prop := s <> EmptyString /\ no_space s = true.

(** The body of the loop of [parseUserList], for one line. *)
Definition add_line (users : gmap string string) (line : string)
    : gmap string string :=
  let fields := UserList.Fields line in
  if (1 <? length fields)%nat
  then match fields with
       | key :: rest => <[ key := UserList.Join rest " " ]> users
       | [] => users
       end
  else users.

(** The commands the executor acts on. *)
Definition recognised (cmd : string) : bool :=
  (String.eqb cmd "open" || String.eqb cmd "close")%bool.

(** The times at which the Open pin is driven High in a timed trace. *)
Fixpoint high_times (tr : list (Z * Op)) : list Z :=
  match tr with
  | [] => []
  | (t, PinHigh p) :: tr' =>
      if p =? OpenPin then t :: high_times tr' else high_times tr'
  | _ :: tr' => high_times tr'
  end.

(** Each time of [l] is at least [d] after the one before it. *)
Fixpoint spaced (d : Z) (l : list Z) : Prop :=
  match l with
  | [] => True
  | t :: l' =>
      match l' with
      | [] => True
      | t' :: _ => t + d <= t'
      end /\ spaced d l'
  end.

(** The pin operations of one pulse of the Open pin begun at [t]. *)
Definition pulse_at (t : Z) : list (Z * Op) :=
  [(t, PinHigh OpenPin); (t + 1 * time.Second, PinLow OpenPin)].

(** The events of [main] before the web server is set up. *)
Definition is_startup_event (e : MainEvent) : bool :=
  match e with
  | MLog _ | MPinMode _ _ => true
  | _ => false
  end.

(* ================================================================== *)
(** * Properties *)
(* ================================================================== *)

(** ** Strings *)

Section StringFacts.

Import GoStrings.

Lemma replace_scan_byte (c : ascii) :
  forall fuel s, (String.length s <= fuel)%nat ->
    replace_scan fuel s (String c "") "" = remove_byte c s.
Proof.
  induction fuel as [|fuel IH]; intros s Hlen.
  - destruct s; simpl in *; [reflexivity | lia].
  - destruct s as [|d s]; [reflexivity|].
    cbn [replace_scan HasPrefix remove_byte String.length drop].
    replace (HasPrefix s "") with true by (destruct s; reflexivity).
    rewrite andb_true_r.
    simpl in Hlen.
    destruct (Ascii.eqb c d); cbn [String.app]; rewrite IH by lia; reflexivity.
Qed.

Lemma ReplaceAll_byte (c : ascii) (s : string) :
  ReplaceAll s (String c "") "" = remove_byte c s.
Proof. unfold ReplaceAll. apply replace_scan_byte. lia. Qed.

Lemma contains_remove_same (c : ascii) (s : string) :
  contains_byte c (remove_byte c s) = false.
Proof.
  induction s as [|d s IH]; [reflexivity|].
  simpl. destruct (Ascii.eqb c d) eqn:E; [exact IH|].
  simpl. rewrite E. exact IH.
Qed.

Lemma contains_remove_other (c d : ascii) (s : string) :
  contains_byte d s = false -> contains_byte d (remove_byte c s) = false.
Proof.
  induction s as [|e s IH]; [reflexivity|].
  simpl. intros H. apply orb_false_iff in H as [He Hs].
  destruct (Ascii.eqb c e); [auto|].
  simpl. rewrite He. auto.
Qed.

Lemma remove_absent (c : ascii) (s : string) :
  contains_byte c s = false -> remove_byte c s = s.
Proof.
  induction s as [|e s IH]; [reflexivity|].
  simpl. intros H. apply orb_false_iff in H as [He Hs].
  rewrite He, IH by assumption. reflexivity.
Qed.

Lemma contains_string_of_list (c : ascii) (l : list ascii) :
  contains_byte c (string_of_list_ascii l) = false <-> ~ In c l.
Proof.
  induction l as [|d l IH]; simpl.
  - split; [tauto | reflexivity].
  - rewrite orb_false_iff, IH, Ascii.eqb_neq. split.
    + intros [Hne Hn] [Heq | Hin]; [congruence | tauto].
    + intros H. split; [intros ->; tauto | tauto].
Qed.

Lemma append_cons (d : ascii) (s t : string) :
  String d s +:+ t = String d (s +:+ t).
Proof. reflexivity. Qed.

Lemma append_nil (t : string) : "" +:+ t = t.
Proof. reflexivity. Qed.

Lemma string_of_list_app_one (l : list ascii) (c : ascii) :
  string_of_list_ascii (l ++ [c]) = string_of_list_ascii l +:+ String c "".
Proof.
  induction l as [|d l IH]; [reflexivity|].
  cbn [string_of_list_ascii List.app]. rewrite IH, append_cons. reflexivity.
Qed.

Lemma remove_byte_app (c : ascii) (s t : string) :
  remove_byte c (s +:+ t) = remove_byte c s +:+ remove_byte c t.
Proof.
  induction s as [|d s IH]; [reflexivity|].
  rewrite append_cons. cbn [remove_byte].
  destruct (Ascii.eqb c d); rewrite IH; reflexivity.
Qed.

Lemma app_empty_r (s : string) : s +:+ "" = s.
Proof.
  induction s as [|d s IH]; [reflexivity|].
  rewrite append_cons, IH. reflexivity.
Qed.

(** [isValid] says exactly that some character is neither ['0'] nor
    ['F']. *)
Lemma isValid_only_0F (token : string) : isValid token = negb (only_0F token).
Proof.
  unfold isValid. rewrite !ReplaceAll_byte.
  induction token as [|c token IH]; [reflexivity|].
  cbn [remove_byte only_0F].
  destruct (Ascii.eqb "F" c) eqn:EF.
  - apply Ascii.eqb_eq in EF. subst c. rewrite IH. reflexivity.
  - cbn [remove_byte]. destruct (Ascii.eqb "0" c) eqn:E0.
    + apply Ascii.eqb_eq in E0. subst c. rewrite IH. reflexivity.
    + rewrite (Ascii.eqb_sym c "0"), (Ascii.eqb_sym c "F"), E0, EF.
      reflexivity.
Qed.

End StringFacts.

(** ** The framer *)

Section FramerFacts.

Import GoStrings Framer.

Lemma token_of_remove (res : list ascii) :
  token_of res = remove_byte STX (remove_byte ETX (string_of_list_ascii res)).
Proof. unfold token_of. rewrite !ReplaceAll_byte. reflexivity. Qed.

Lemma ReadBytes_rest_shorter (delim : ascii) :
  forall port acc empties res rest,
    ReadBytes delim acc empties port = Line res rest ->
    (length rest < length port)%nat.
Proof.
  induction port as [|r port IH]; intros acc empties res rest H; [discriminate|].
  cbn [ReadBytes] in H. destruct r as [p|err]; [|discriminate].
  destruct (through_delim delim p) as [line|].
  - injection H as _ <-. simpl. lia.
  - destruct p as [|b p].
    + destruct (maxConsecutiveEmptyReads <=? S empties)%nat; [discriminate|].
      apply IH in H. simpl. lia.
    + apply IH in H. simpl. lia.
Qed.

(** Enough fuel: the result does not depend on it. *)
Lemma framer_loop_fuel :
  forall fuel1 fuel2 port,
    (length port < fuel1)%nat -> (length port < fuel2)%nat ->
    framer_loop fuel1 port = framer_loop fuel2 port.
Proof.
  induction fuel1 as [|fuel1 IH]; intros fuel2 port H1 H2; [lia|].
  destruct fuel2 as [|fuel2]; [lia|].
  cbn [framer_loop].
  destruct (ReadBytes ETX [] 0 port) as [res rest| |] eqn:E; try reflexivity.
  apply ReadBytes_rest_shorter in E.
  rewrite (IH fuel2 rest) by lia. reflexivity.
Qed.

(** The loop of [getRFIDToken], unfolded once. *)
Lemma getRFIDToken_unfold (port : list ReadResult) :
  getRFIDToken port =
  match ReadBytes ETX [] 0 port with
  | Waiting => ([], Blocked)
  | Failed err _ => ([], Panicked err)
  | Line res rest =>
      let '(sent, stop) := getRFIDToken rest in (token_of res :: sent, stop)
  end.
Proof.
  unfold getRFIDToken at 1. cbn [framer_loop].
  destruct (ReadBytes ETX [] 0 port) as [res rest| |] eqn:E; try reflexivity.
  apply ReadBytes_rest_shorter in E.
  unfold getRFIDToken.
  rewrite (framer_loop_fuel (length port) (S (length rest)) rest) by lia.
  reflexivity.
Qed.

(** The model of the loop never stops for lack of fuel: on every
    finite list of [Read] results the goroutine ends blocked in a
    [Read] or in a panic. *)
Lemma getRFIDToken_stops (port : list ReadResult) :
  snd (getRFIDToken port) = Blocked \/
  exists err, snd (getRFIDToken port) = Panicked err.
Proof.
  remember (length port) as n eqn:Hn.
  revert port Hn. induction n as [n IH] using lt_wf_ind. intros port ->.
  rewrite getRFIDToken_unfold.
  destruct (ReadBytes ETX [] 0 port) as [res rest|err rest|] eqn:E.
  - apply ReadBytes_rest_shorter in E.
    specialize (IH (length rest) E rest eq_refl).
    destruct (getRFIDToken rest) as [sent stop]. exact IH.
  - right. exists err. reflexivity.
  - left. reflexivity.
Qed.

(** No string sent on the channel holds a framing byte. *)
Lemma getRFIDToken_tokens_clean (port : list ReadResult) (tok : string) :
  In tok (fst (getRFIDToken port)) ->
  contains_byte STX tok = false /\ contains_byte ETX tok = false.
Proof.
  remember (length port) as n eqn:Hn.
  revert port Hn. induction n as [n IH] using lt_wf_ind. intros port -> Hin.
  rewrite getRFIDToken_unfold in Hin.
  destruct (ReadBytes ETX [] 0 port) as [res rest|err rest|] eqn:E;
    [|destruct Hin|destruct Hin].
  apply ReadBytes_rest_shorter in E.
  specialize (IH (length rest) E rest eq_refl).
  destruct (getRFIDToken rest) as [sent stop]. cbn [fst] in *.
  destruct Hin as [<- | Hin]; [|auto].
  rewrite token_of_remove. split.
  - apply contains_remove_same.
  - apply contains_remove_other, contains_remove_same.
Qed.

Lemma through_delim_absent (delim : ascii) (p : list ascii) :
  ~ In delim p -> through_delim delim p = None.
Proof.
  induction p as [|b p IH]; [reflexivity|].
  intros H. cbn [through_delim].
  destruct (Ascii.eqb b delim) eqn:E.
  - apply Ascii.eqb_eq in E. subst. exfalso. apply H. left. reflexivity.
  - rewrite IH; [reflexivity|]. intros Hin. apply H. right. exact Hin.
Qed.

Lemma through_delim_last (delim : ascii) (p : list ascii) :
  ~ In delim p -> through_delim delim (p ++ [delim]) = Some (p ++ [delim]).
Proof.
  induction p as [|b p IH]; intros H.
  - cbn. rewrite Ascii.eqb_refl. reflexivity.
  - cbn [List.app through_delim].
    destruct (Ascii.eqb b delim) eqn:E.
    + apply Ascii.eqb_eq in E. subst. exfalso. apply H. left. reflexivity.
    + rewrite IH; [reflexivity|]. intros Hin. apply H. right. exact Hin.
Qed.

(** The token of a whole frame is its payload. *)
Lemma token_of_frame (payload : list ascii) :
  clean payload -> token_of (frame payload) = string_of_list_ascii payload.
Proof.
  intros [Hstx Hetx]. rewrite token_of_remove. unfold frame.
  change (STX :: payload ++ [ETX]) with ((STX :: payload) ++ [ETX]).
  rewrite string_of_list_app_one, remove_byte_app.
  cbn [remove_byte string_of_list_ascii].
  rewrite Ascii.eqb_refl, app_empty_r.
  replace (Ascii.eqb ETX STX) with false by reflexivity.
  rewrite (remove_absent ETX) by (apply contains_string_of_list; exact Hetx).
  cbn [remove_byte]. rewrite Ascii.eqb_refl.
  apply remove_absent, contains_string_of_list. exact Hstx.
Qed.

Lemma ReadBytes_delivered :
  forall (reads : list (list ascii)) (acc body : list ascii) (rest : list ReadResult),
    Forall (fun p => p <> []) reads ->
    concat reads = body ++ [ETX] ->
    ~ In ETX body ->
    ReadBytes ETX acc 0 (map ReadData reads ++ rest) = Line (acc ++ body ++ [ETX]) rest.
Proof.
  induction reads as [|p reads IH]; intros acc body rest Hne Hcat Hbody.
  - destruct body; discriminate.
  - inversion Hne as [|? ? Hp Hne']; subst. cbn [concat] in Hcat.
    cbn [map List.app ReadBytes].
    destruct reads as [|p' reads].
    + cbn [concat] in Hcat. rewrite List.app_nil_r in Hcat. subst p.
      rewrite through_delim_last by exact Hbody. reflexivity.
    + assert (Hnil : concat (p' :: reads) <> []).
      { inversion Hne' as [|? ? Hp' _]; subst. cbn [concat].
        destruct p'; [congruence | discriminate]. }
      destruct (exists_last Hnil) as [body' [x Hx]].
      rewrite Hx, List.app_assoc in Hcat.
      apply app_inj_tail in Hcat as [Hb ->].
      subst body.
      assert (Hp_etx : ~ In ETX p) by (intros H; apply Hbody, in_or_app; left; exact H).
      assert (Hb_etx : ~ In ETX body') by (intros H; apply Hbody, in_or_app; right; exact H).
      rewrite through_delim_absent by exact Hp_etx.
      destruct p as [|b p]; [congruence|].
      rewrite (IH (acc ++ b :: p) body' rest Hne' Hx Hb_etx).
      rewrite <- !List.app_assoc. reflexivity.
Qed.

(** When every frame is delivered by [Read]s of its own, the framer
    sends one token per frame, the payload, in order. *)
Lemma getRFIDToken_delivered (frames : list (list ascii * list (list ascii))) :
  Forall (fun f => clean (fst f) /\ delivers (fst f) (snd f)) frames ->
  getRFIDToken (port_of frames) =
  (map (fun f => string_of_list_ascii (fst f)) frames, Blocked).
Proof.
  induction frames as [|[payload reads] frames IH]; intros H.
  - reflexivity.
  - inversion H as [|? ? [Hclean [Hcat Hne]] H']; subst. cbn [fst snd] in *.
    rewrite getRFIDToken_unfold.
    unfold port_of. cbn [map concat snd]. rewrite map_app.
    unfold frame in Hcat.
    change (STX :: payload ++ [ETX]) with ((STX :: payload) ++ [ETX]) in Hcat.
    rewrite (ReadBytes_delivered reads [] (STX :: payload) _ Hne Hcat).
    2:{ intros [Heq | Hin]; [discriminate | exact (proj2 Hclean Hin)]. }
    fold (port_of frames). rewrite (IH H').
    cbn [List.app map fst].
    change (token_of _) with (token_of (frame payload)).
    rewrite token_of_frame by exact Hclean. reflexivity.
Qed.

Lemma ReadBytes_then_error (delim : ascii) (err : string) (after : list ReadResult) :
  forall port acc empties,
    ReadBytes delim acc empties port = Waiting ->
    ReadBytes delim acc empties (port ++ ReadError err :: after) = Failed err after.
Proof.
  induction port as [|r port IH]; intros acc empties H; [reflexivity|].
  cbn [List.app ReadBytes] in *. destruct r as [p|e]; [|discriminate].
  destruct (through_delim delim p); [discriminate|].
  destruct p as [|b p].
  - destruct (maxConsecutiveEmptyReads <=? S empties)%nat; [discriminate|].
    apply IH. exact H.
  - apply IH. exact H.
Qed.

Lemma ReadBytes_line_app (delim : ascii) (more : list ReadResult) :
  forall port acc empties res rest,
    ReadBytes delim acc empties port = Line res rest ->
    ReadBytes delim acc empties (port ++ more) = Line res (rest ++ more).
Proof.
  induction port as [|r port IH]; intros acc empties res rest H; [discriminate|].
  cbn [List.app ReadBytes] in *. destruct r as [p|e]; [|discriminate].
  destruct (through_delim delim p).
  - injection H as <- <-. reflexivity.
  - destruct p as [|b p].
    + destruct (maxConsecutiveEmptyReads <=? S empties)%nat; [discriminate|].
      apply IH. exact H.
    + apply IH. exact H.
Qed.

End FramerFacts.

(** C7 (as found in the code).  The reader goroutine makes a new
    [bufio.Reader] for every token.  When one [Read] returns the end of
    a frame together with bytes of the next frame, these bytes are lost
    with the reader: of two frames delivered by one [Read] only the
    first becomes a token, and a frame cut in two by such a [Read]
    becomes a token that is not its payload. *)
Theorem C7_frames_sharing_a_read_are_lost :
  Framer.getRFIDToken
    [Framer.ReadData (Framer.frame ["A"%char] ++ Framer.frame ["B"%char])]
  = (["A"], Framer.Blocked)
  /\ Framer.getRFIDToken
       [Framer.ReadData (Framer.frame ["A"%char] ++ [Framer.STX; "B"%char]);
        Framer.ReadData ["C"%char; Framer.ETX]]
     = (["A"; "C"], Framer.Blocked).
Proof. split; reflexivity. Qed.

(** C10.  When a [Read] on the port returns an error while the framer
    is reading, the goroutine panics with that error: the tokens sent
    are those sent before, none is added, and whatever the port would
    deliver afterwards is not read. *)
Theorem C10_read_error_panics
    (port after : list Framer.ReadResult) (err : string)
    (Hreading : snd (Framer.getRFIDToken port) = Framer.Blocked) :
  Framer.getRFIDToken (port ++ Framer.ReadError err :: after)
  = (fst (Framer.getRFIDToken port), Framer.Panicked err).
Proof.
  remember (length port) as n eqn:Hn.
  revert port Hn Hreading. induction n as [n IH] using lt_wf_ind.
  intros port -> Hreading.
  rewrite getRFIDToken_unfold. rewrite getRFIDToken_unfold in Hreading.
  rewrite (getRFIDToken_unfold port).
  destruct (Framer.ReadBytes Framer.ETX [] 0 port) as [res rest|e rest|] eqn:E.
  - rewrite (ReadBytes_line_app _ _ _ _ _ _ _ E).
    apply ReadBytes_rest_shorter in E.
    specialize (IH (length rest) E rest eq_refl).
    destruct (Framer.getRFIDToken rest) as [sent stop]. cbn [fst snd] in *.
    rewrite (IH Hreading). reflexivity.
  - discriminate.
  - rewrite (ReadBytes_then_error _ _ _ _ _ _ E). reflexivity.
Qed.

Lemma C10_read_error_panics_witness :
  Framer.getRFIDToken
    ([Framer.ReadData (Framer.frame ["A"%char]); Framer.ReadData [Framer.STX]]
       ++ Framer.ReadError "EOF" :: [Framer.ReadData (Framer.frame ["B"%char])])
  = (["A"], Framer.Panicked "EOF").
Proof.
  exact (C10_read_error_panics
           [Framer.ReadData (Framer.frame ["A"%char]); Framer.ReadData [Framer.STX]]
           [Framer.ReadData (Framer.frame ["B"%char])] "EOF" eq_refl).
Defined.

(** ** The door status monitor *)

Section MonitorFacts.

Import Monitor.

Ltac run_monitor :=
  unfold updateSphincterStatus, when, and_then, reads_as, Read, set_status,
    get_status, bind, ret; cbn [reads sphincterStatus fst snd].

(** With lines that hold still during the call, the result is the
    status of their levels, whatever was stored before. *)
Lemma updateSphincterStatus_stable
    (sensor : nat -> rpio.Pin -> rpio.State) (s : Mon) (p0 p1 : rpio.State) :
  stable sensor (reads s) p0 p1 ->
  fst (updateSphincterStatus sensor s) = status_of p0 p1 /\
  sphincterStatus (snd (updateSphincterStatus sensor s)) = status_of p0 p1.
Proof.
  intros H. destruct s as [k g]. cbn [reads] in H.
  assert (H' : forall i, (i < 8)%nat ->
            sensor (Nat.iter i S k) StatusPin0 = p0 /\
            sensor (Nat.iter i S k) StatusPin1 = p1).
  { intros i Hi. replace (Nat.iter i S k) with (k + i)%nat; [auto|].
    clear. induction i; simpl; lia. }
  pose proof (H' 0%nat ltac:(lia)) as [A0 B0].
  pose proof (H' 1%nat ltac:(lia)) as [A1 B1].
  pose proof (H' 2%nat ltac:(lia)) as [A2 B2].
  pose proof (H' 3%nat ltac:(lia)) as [A3 B3].
  pose proof (H' 4%nat ltac:(lia)) as [A4 B4].
  pose proof (H' 5%nat ltac:(lia)) as [A5 B5].
  pose proof (H' 6%nat ltac:(lia)) as [A6 B6].
  pose proof (H' 7%nat ltac:(lia)) as [A7 B7].
  clear H H'. simpl Nat.iter in *.
  run_monitor.
  destruct p0, p1;
    repeat (first [rewrite A0 | rewrite B0 | rewrite A1 | rewrite B1
                  | rewrite A2 | rewrite B2 | rewrite A3 | rewrite B3
                  | rewrite A4 | rewrite B4 | rewrite A5 | rewrite B5
                  | rewrite A6 | rewrite B6 | rewrite A7 | rewrite B7];
            cbn beta iota delta [rpio.State_eqb reads sphincterStatus fst snd]);
    split; reflexivity.
Qed.

(** Whatever the lines do during the call, the result is the status
    stored at the end, and one of the four constants when the status
    stored before was one. *)
Lemma updateSphincterStatus_range
    (sensor : nat -> rpio.Pin -> rpio.State) (s : Mon) :
  In (sphincterStatus s) [UNKNOWN; LOCKED; UNLOCKED; FAILURE] ->
  fst (updateSphincterStatus sensor s)
  = sphincterStatus (snd (updateSphincterStatus sensor s)) /\
  In (fst (updateSphincterStatus sensor s)) [UNKNOWN; LOCKED; UNLOCKED; FAILURE].
Proof.
  intros Hin. destruct s as [k g]. cbn [sphincterStatus] in Hin.
  run_monitor.
  repeat match goal with
         | |- context [rpio.State_eqb (sensor ?i ?p) _] =>
             destruct (sensor i p);
             cbn beta iota delta [rpio.State_eqb reads sphincterStatus fst snd]
         end;
    (split; [reflexivity | first [exact Hin | simpl; tauto]]).
Qed.

(** Lines that change between the reads can make all four tests fail;
    the function then returns the status stored by an earlier call. *)
Lemma updateSphincterStatus_torn_reads :
  let torn := fun (k : nat) (_ : rpio.Pin) =>
                if (Nat.eqb k 0 || Nat.eqb k 3)%bool then rpio.High else rpio.Low in
  fst (updateSphincterStatus torn (mkMon 0 LOCKED)) = LOCKED /\
  fst (updateSphincterStatus torn (mkMon 0 FAILURE)) = FAILURE.
Proof. split; reflexivity. Qed.

End MonitorFacts.

(** C4 (as stated).  The claim has two readings, and the code fails
    both.  Read as "the call changes nothing": with the lines held at
    low/high and [UNKNOWN] stored, the call stores [LOCKED].  Read as
    "the result is a function of the lines alone, nothing remembered":
    with lines that change between the reads so that no test succeeds,
    the call returns whatever status was stored before. *)
Lemma C4_counterexample :
  ~ (forall (sensor : nat -> rpio.Pin -> rpio.State) (s : Monitor.Mon),
       Monitor.sphincterStatus (snd (Monitor.updateSphincterStatus sensor s))
       = Monitor.sphincterStatus s)
  /\
  ~ (forall (sensor : nat -> rpio.Pin -> rpio.State) (s1 s2 : Monitor.Mon),
       Monitor.reads s1 = Monitor.reads s2 ->
       fst (Monitor.updateSphincterStatus sensor s1)
       = fst (Monitor.updateSphincterStatus sensor s2)).
Proof.
  split.
  - intros H.
    specialize (H (Monitor.steady rpio.Low rpio.High) (Monitor.mkMon 0 UNKNOWN)).
    vm_compute in H. discriminate.
  - intros H.
    specialize (H (fun (k : nat) (_ : rpio.Pin) =>
                     if (Nat.eqb k 0 || Nat.eqb k 3)%bool then rpio.High else rpio.Low)
                  (Monitor.mkMon 0 LOCKED) (Monitor.mkMon 0 FAILURE) eq_refl).
    vm_compute in H. discriminate.
Qed.

(** C4 (amended).  [updateSphincterStatus] stores its result in the
    global [sphincterStatus] and returns it.  When the two sensor lines
    hold their levels during the call, the result is decided by these
    levels alone, whatever was stored before: low/low is [UNKNOWN],
    high/high [FAILURE], high/low [UNLOCKED], low/high [LOCKED], and
    there is no fifth result. *)
Theorem C4_status_of_stable_lines
    (sensor : nat -> rpio.Pin -> rpio.State) (s : Monitor.Mon)
    (p0 p1 : rpio.State)
    (Hstable : Monitor.stable sensor (Monitor.reads s) p0 p1) :
  fst (Monitor.updateSphincterStatus sensor s) = Monitor.status_of p0 p1 /\
  Monitor.sphincterStatus (snd (Monitor.updateSphincterStatus sensor s))
  = Monitor.status_of p0 p1 /\
  Monitor.status_of rpio.Low rpio.Low = UNKNOWN /\
  Monitor.status_of rpio.High rpio.High = FAILURE /\
  Monitor.status_of rpio.High rpio.Low = UNLOCKED /\
  Monitor.status_of rpio.Low rpio.High = LOCKED /\
  In (Monitor.status_of p0 p1) [UNKNOWN; LOCKED; UNLOCKED; FAILURE].
Proof.
  destruct (updateSphincterStatus_stable sensor s p0 p1 Hstable) as [Hr Hs].
  repeat split; try assumption.
  destruct p0, p1; simpl; tauto.
Qed.

Lemma C4_status_of_stable_lines_witness :
  fst (Monitor.updateSphincterStatus (Monitor.steady rpio.High rpio.Low)
         (Monitor.mkMon 0 LOCKED)) = UNLOCKED.
Proof.
  refine (proj1 (C4_status_of_stable_lines
                   (Monitor.steady rpio.High rpio.Low) (Monitor.mkMon 0 LOCKED)
                   rpio.High rpio.Low _)).
  intros i _. split; reflexivity.
Defined.

(** ** The HTTP handler *)

Lemma skipn_added {A} (l r : list A) : skipn (length l) (l ++ r) = r.
Proof. induction l as [|x l IH]; [reflexivity | exact IH]. Qed.

(** The answer to a state query never looks at the sensor lines, and
    the query drives no pin. *)
Lemma handler_state (r : Request) :
  Method r = "GET" -> action r = "state" ->
  handler r = [LogRequest r; Fprint "UNLOCKED"].
Proof. intros HM HA. unfold handler. rewrite HM, HA. reflexivity. Qed.

(** C2 (as found in the code).  The handler answers a state query with
    the fixed text UNLOCKED, without calling [updateSphincterStatus]:
    with the lines at low/high the monitor yields [LOCKED], the query
    still answers UNLOCKED. *)
Theorem C2_state_query_answers_UNLOCKED :
  let r := {| Method := "GET"; action := "state" |} in
  let door := fst (Monitor.updateSphincterStatus (Monitor.steady rpio.Low rpio.High)
                     (Monitor.mkMon 0 UNKNOWN)) in
  door = LOCKED /\
  handler r = [LogRequest r; Fprint "UNLOCKED"] /\
  responses (handler r) <> [Monitor.status_text door].
Proof. cbv zeta. split; [reflexivity|]. split; [reflexivity|]. discriminate. Qed.

(** A GET request with action unlock served while no other goroutine
    drives the pin: the Open pin goes High, stays High during the
    one-second sleep, goes Low, and the response is written after
    that.  The handler neither reads nor writes [latestTimestamp]: the
    pulse is issued in every state of the debounce gate. *)
Lemma unlock_pulse_served_alone
    (r : Request) (w : World)
    (HM : Method r = "GET") (HA : action r = "unlock") :
  let t := now w in
  let w' := run (handler r) w in
  added w w' =
    [(t, LogRequest r); (t, PinHigh OpenPin); (t, Sleep (1 * time.Second));
     (t + 1 * time.Second, PinLow OpenPin);
     (t + 1 * time.Second, Fprint "UNLOCKED")] /\
  map (fun x => (now x, level x OpenPin)) (run_states (handler r) w) =
    [(t, level w OpenPin); (t, rpio.High); (t + 1 * time.Second, rpio.High);
     (t + 1 * time.Second, rpio.Low); (t + 1 * time.Second, rpio.Low)] /\
  latestTimestamp w' = latestTimestamp w /\
  1 * time.Second = 1000000000.
Proof.
  assert (Hh : handler r =
               [LogRequest r; PinHigh OpenPin; Sleep (1 * time.Second);
                PinLow OpenPin; Fprint "UNLOCKED"]).
  { unfold handler. rewrite HM, HA. reflexivity. }
  cbv zeta. rewrite Hh. repeat split.
  unfold added, run. cbn [fold_left exec_op trace now].
  rewrite <- !List.app_assoc. apply skipn_added.
Qed.

(** C9.  A GET request with action lock answers LOCKED and touches no
    pin: the level of every pin is what it was. *)
Theorem C9_lock_touches_no_pin
    (r : Request) (w : World)
    (HM : Method r = "GET") (HA : action r = "lock") :
  let w' := run (handler r) w in
  responses (handler r) = ["LOCKED"] /\
  pin_ops (added w w') = [] /\
  (forall p, level w' p = level w p) /\
  now w' = now w.
Proof.
  assert (Hh : handler r = [LogRequest r; Fprint "LOCKED"]).
  { unfold handler. rewrite HM, HA. reflexivity. }
  cbv zeta. rewrite Hh. repeat split.
  unfold added, run. cbn [fold_left exec_op trace now].
  rewrite <- !List.app_assoc, skipn_added. reflexivity.
Qed.

Lemma C9_lock_touches_no_pin_witness :
  let r := {| Method := "GET"; action := "lock" |} in
  let w := mkWorld 7 (fun _ => rpio.Low) 6 [] in
  responses (handler r) = ["LOCKED"] /\ pin_ops (added w (run (handler r) w)) = [].
Proof.
  pose proof (C9_lock_touches_no_pin {| Method := "GET"; action := "lock" |}
                (mkWorld 7 (fun _ => rpio.Low) 6 []) eq_refl eq_refl) as H.
  cbv zeta in H. destruct H as [Hr [Hp _]]. cbv zeta. split; assumption.
Defined.

(** ** The reader loop *)

Lemma validate_listed (users : gmap string string) (msg owner : string) :
  users !! msg = Some owner -> validate users msg = Authorized owner.
Proof. intros H. unfold validate. rewrite H. reflexivity. Qed.

Lemma validate_unlisted (users : gmap string string) (msg : string) :
  users !! msg = None ->
  validate users msg = if only_0F msg then Malformed else Unauthorized.
Proof.
  intros H. unfold validate. rewrite H, isValid_only_0F.
  destruct (only_0F msg); reflexivity.
Qed.

(** The four ways a turn of the loop can go. *)
Lemma reader_iteration_cases (users : gmap string string) (w : World) (a : Arrival) :
  let w1 := recv a w in
  (time.Sub (now w1) (latestTimestamp w) < 5 * time.Second /\
   reader_iteration users w a = run [Log "Triggered too fast; skipped unlock"] w1)
  \/
  (5 * time.Second <= time.Sub (now w1) (latestTimestamp w) /\
   exists owner, users !! a_msg a = Some owner /\
     reader_iteration users w a =
     run [Log ("Hello " +:+ a_msg a +:+ " " +:+ owner);
          PinHigh OpenPin; Sleep (1 * time.Second); PinLow OpenPin]
         (mkWorld (now w1) (level w) (now w1) (trace w)))
  \/
  (5 * time.Second <= time.Sub (now w1) (latestTimestamp w) /\
   users !! a_msg a = None /\
   (reader_iteration users w a = run [Log ("Could not find key " +:+ a_msg a)] w1 \/
    reader_iteration users w a = w1)).
Proof.
  cbv zeta. unfold reader_iteration. cbv zeta.
  change (latestTimestamp (recv a w)) with (latestTimestamp w).
  destruct (Z.ltb_spec (time.Sub (now (recv a w)) (latestTimestamp w))
                       (5 * time.Second)) as [Hlt | Hge].
  - left. split; [exact Hlt | reflexivity].
  - right. unfold validate.
    destruct (users !! a_msg a) as [owner|] eqn:E.
    + left. split; [exact Hge|]. exists owner. split; reflexivity.
    + right. split; [exact Hge|]. split; [reflexivity|].
      destruct (isValid (a_msg a)); [left | right]; reflexivity.
Qed.

(** The effect of a turn that opens the door at time [t]. *)
Lemma pulse_effect (hello : string) (t l : Z) (lv : rpio.Pin -> rpio.State)
    (tr : list (Z * Op)) (w : World) :
  trace w = tr ->
  let w' := run [Log hello; PinHigh OpenPin; Sleep (1 * time.Second); PinLow OpenPin]
                (mkWorld t lv l tr) in
  latestTimestamp w' = l /\
  now w' = t + 1 * time.Second /\
  pin_ops (added w w') =
    [(t, PinHigh OpenPin); (t + 1 * time.Second, PinLow OpenPin)].
Proof.
  intros <-. cbv zeta. repeat split.
  unfold added, run. cbn [fold_left exec_op trace now].
  rewrite <- !List.app_assoc, skipn_added. reflexivity.
Qed.

Lemma log_effect (text : string) (w0 w : World) :
  trace w = trace w0 ->
  let w' := run [Log text] w in
  latestTimestamp w' = latestTimestamp w /\ pin_ops (added w0 w') = [].
Proof.
  intros Htr. cbv zeta. split; [reflexivity|].
  unfold added, run. cbn [fold_left exec_op trace now].
  rewrite Htr, skipn_added. reflexivity.
Qed.

Lemma added_nothing (w0 w : World) : trace w = trace w0 -> added w0 w = [].
Proof.
  intros H. unfold added. rewrite H.
  rewrite <- (List.app_nil_r (trace w0)) at 2. apply skipn_added.
Qed.

(** A token that is not in the list moves neither a pin nor
    [latestTimestamp], whether it is well-formed or not. *)
Lemma reader_iteration_unlisted (users : gmap string string) (w : World) (a : Arrival) :
  users !! a_msg a = None ->
  pin_ops (added w (reader_iteration users w a)) = [] /\
  latestTimestamp (reader_iteration users w a) = latestTimestamp w.
Proof.
  intros Hnone.
  destruct (reader_iteration_cases users w a)
    as [[_ ->] | [[_ [owner [Hsome _]]] | [_ [_ [-> | ->]]]]].
  - destruct (log_effect "Triggered too fast; skipped unlock" w (recv a w) eq_refl)
      as [Hl Hp]. split; [exact Hp | exact Hl].
  - congruence.
  - destruct (log_effect ("Could not find key " +:+ a_msg a) w (recv a w) eq_refl)
      as [Hl Hp]. split; [exact Hp | exact Hl].
  - split; [|reflexivity]. rewrite added_nothing; reflexivity.
Qed.

(** C5 (as found in the code).  The loop looks the token up in the list
    before it asks [isValid], and asks [isValid] only to decide whether
    a token that is not in the list is logged.  A token made of 0 and F
    only that is in the list is therefore authorized: the timestamp is
    set and the Open pin is pulsed.  Here the list file holds the lines
    [A1B2 Alice] and [0000 Bob]. *)
Theorem C5_listed_0F_token_is_authorized :
  let LF := String UserList.LF "" in
  let users := UserList.parseUserList ("A1B2 Alice" +:+ LF +:+ "0000 Bob" +:+ LF) in
  let w := mkWorld 100 (fun _ => rpio.Low) time.zeroTime [] in
  let w' := reader_iteration users w (Build_Arrival "0000" 100) in
  only_0F "0000" = true /\
  isValid "0000" = false /\
  validate users "0000" = Authorized "Bob" /\
  pin_ops (trace w') = [(100, PinHigh OpenPin); (1000000100, PinLow OpenPin)] /\
  latestTimestamp w' = 100.
Proof. vm_compute. repeat split. Qed.

(** C6.  Two tokens of the list, the first one admitted at time [t1]:
    [latestTimestamp] becomes [t1] and the Open pin is pulsed.  When the
    second is received at [t2], less than five seconds after [t1], it
    is skipped: no pin moves and [latestTimestamp] stays [t1].  When
    five seconds or more have passed, it is admitted: the pin is pulsed
    and [latestTimestamp] becomes [t2].  And no turn of the loop changes
    [latestTimestamp] unless its token is in the list. *)
Theorem C6_debounce_gate
    (users : gmap string string) (w : World) (a1 a2 : Arrival) (o1 o2 : string)
    (H1 : users !! a_msg a1 = Some o1)
    (H2 : users !! a_msg a2 = Some o2)
    (Hopen : 5 * time.Second <= time.Sub (now (recv a1 w)) (latestTimestamp w)) :
  let w1 := reader_iteration users w a1 in
  let w2 := reader_iteration users w1 a2 in
  let t1 := now (recv a1 w) in
  let t2 := now (recv a2 w1) in
  (latestTimestamp w1 = t1 /\
   pin_ops (added w w1) = [(t1, PinHigh OpenPin); (t1 + 1 * time.Second, PinLow OpenPin)])
  /\
  (time.Sub t2 t1 < 5 * time.Second ->
   pin_ops (added w1 w2) = [] /\ latestTimestamp w2 = t1)
  /\
  (5 * time.Second <= time.Sub t2 t1 ->
   pin_ops (added w1 w2) = [(t2, PinHigh OpenPin); (t2 + 1 * time.Second, PinLow OpenPin)]
   /\ latestTimestamp w2 = t2)
  /\
  (forall (w0 : World) (a : Arrival),
     latestTimestamp (reader_iteration users w0 a) <> latestTimestamp w0 ->
     exists owner, validate users (a_msg a) = Authorized owner).
Proof.
  cbv zeta.
  assert (Hfirst : latestTimestamp (reader_iteration users w a1) = now (recv a1 w) /\
                   pin_ops (added w (reader_iteration users w a1)) =
                   [(now (recv a1 w), PinHigh OpenPin);
                    (now (recv a1 w) + 1 * time.Second, PinLow OpenPin)]).
  { destruct (reader_iteration_cases users w a1)
      as [[Hlt _] | [[_ [owner [_ ->]]] | [_ [Hnone _]]]]; [lia | | congruence].
    destruct (pulse_effect ("Hello " +:+ a_msg a1 +:+ " " +:+ owner)
                (now (recv a1 w)) (now (recv a1 w)) (level w) (trace w) w eq_refl)
      as [Hl [_ Hp]].
    split; [exact Hl | exact Hp]. }
  destruct Hfirst as [Hl1 Hp1].
  split; [split; assumption|].
  split; [|split].
  - intros Hlt.
    destruct (reader_iteration_cases users (reader_iteration users w a1) a2)
      as [[_ ->] | [[Hge _] | [Hge _]]];
      [| rewrite Hl1 in Hge; lia | rewrite Hl1 in Hge; lia].
    destruct (log_effect "Triggered too fast; skipped unlock"
                (reader_iteration users w a1)
                (recv a2 (reader_iteration users w a1)) eq_refl) as [Hl Hp].
    split; [exact Hp|]. rewrite Hl. exact Hl1.
  - intros Hge.
    destruct (reader_iteration_cases users (reader_iteration users w a1) a2)
      as [[Hlt _] | [[_ [owner [_ ->]]] | [_ [Hnone _]]]];
      [rewrite Hl1 in Hlt; lia | | congruence].
    destruct (pulse_effect ("Hello " +:+ a_msg a2 +:+ " " +:+ owner)
                (now (recv a2 (reader_iteration users w a1)))
                (now (recv a2 (reader_iteration users w a1)))
                (level (reader_iteration users w a1))
                (trace (reader_iteration users w a1))
                (reader_iteration users w a1) eq_refl)
      as [Hl [_ Hp]].
    split; [exact Hp | exact Hl].
  - intros w0 a Hchanged.
    destruct (users !! a_msg a) as [owner|] eqn:E.
    + exists owner. apply validate_listed. exact E.
    + destruct (reader_iteration_unlisted users w0 a E) as [_ Hsame]. congruence.
Qed.

Lemma C6_debounce_gate_witness :
  let users : gmap string string := {[ "A1B2" := "Alice" ]} in
  let w := mkWorld 0 (fun _ => rpio.Low) time.zeroTime [] in
  let w1 := reader_iteration users w (Build_Arrival "A1B2" (10 * time.Second)) in
  let soon := reader_iteration users w1 (Build_Arrival "A1B2" (12 * time.Second)) in
  let late := reader_iteration users w1 (Build_Arrival "A1B2" (20 * time.Second)) in
  (pin_ops (added w1 soon) = [] /\ latestTimestamp soon = 10 * time.Second) /\
  latestTimestamp late = 20 * time.Second.
Proof.
  cbv zeta. split.
  - pose proof (C6_debounce_gate {[ "A1B2" := "Alice" ]}
                  (mkWorld 0 (fun _ => rpio.Low) time.zeroTime [])
                  (Build_Arrival "A1B2" (10 * time.Second))
                  (Build_Arrival "A1B2" (12 * time.Second))
                  "Alice" "Alice" eq_refl eq_refl) as H.
    cbv zeta in H.
    destruct (H ltac:(vm_compute; discriminate)) as [_ [Hsoon _]].
    exact (Hsoon ltac:(vm_compute; reflexivity)).
  - pose proof (C6_debounce_gate {[ "A1B2" := "Alice" ]}
                  (mkWorld 0 (fun _ => rpio.Low) time.zeroTime [])
                  (Build_Arrival "A1B2" (10 * time.Second))
                  (Build_Arrival "A1B2" (20 * time.Second))
                  "Alice" "Alice" eq_refl eq_refl) as H.
    cbv zeta in H.
    destruct (H ltac:(vm_compute; discriminate)) as [_ [_ [Hlate _]]].
    exact (proj2 (Hlate ltac:(vm_compute; discriminate))).
Defined.

(** ** [main] *)

Lemma reader_events_are_reader (env : Env) (users : gmap string string) :
  Forall (fun e => is_reader_event e = true) (reader_events env users).
Proof.
  unfold reader_events.
  destruct (Framer.getRFIDToken (e_port env)) as [tokens stop].
  constructor; [reflexivity|].
  apply Forall_app. split.
  - apply List.Forall_forall. intros e He.
    apply List.in_map_iff in He as [x [<- _]]. reflexivity.
  - destruct stop; repeat constructor.
Qed.

(** [main] never calls [setupSphincterCmdChannel]: what that function
    does (starting the executor goroutine) happens in no run. *)
Lemma main_never_starts_executor (env : Env) (e : MainEvent) :
  In e setupSphincterCmdChannel -> ~ In e (main env).
Proof.
  intros [<- | []]. unfold main. intros H.
  destruct (e_rpio_open env); [simpl in H; intuition discriminate|].
  destruct (e_users env) as [err|users]; [simpl in H; intuition discriminate|].
  destruct (e_serial_open env); [simpl in H; intuition discriminate|].
  destruct (e_listen env) as [|err]; [simpl in H; intuition discriminate|].
  cbn [List.app] in H.
  repeat (destruct H as [H | H]; [discriminate|]).
  unfold reader_events in H.
  destruct (Framer.getRFIDToken (e_port env)) as [tokens stop].
  destruct H as [H | H]; [discriminate|].
  apply in_app_or in H as [H | H].
  - apply List.in_map_iff in H as [x [H _]]. discriminate.
  - destruct stop; simpl in H; intuition discriminate.
Qed.

(** C3.  Every event of the reader path in a run of [main] (the start
    of the framer goroutine, an operation of the reader loop, the
    framer's panic) comes after the return of [http.ListenAndServe],
    and that return carries the error that stopped the server: in a run
    where the server keeps serving there is no such event. *)
Theorem C3_reader_runs_after_ListenAndServe_returns
    (env : Env) (pre post : list MainEvent) (e : MainEvent)
    (Hsplit : main env = pre ++ e :: post)
    (Hreader : is_reader_event e = true) :
  e_listen env <> Serving /\
  exists err, e_listen env = ListenFailed err /\ In (MListenReturned err) pre.
Proof.
  unfold main in Hsplit.
  assert (Hin : In e (pre ++ e :: post)) by (apply in_or_app; right; left; reflexivity).
  destruct (e_rpio_open env).
  { rewrite <- Hsplit in Hin. simpl in Hin.
    repeat (destruct Hin as [<- | Hin]; [discriminate|]). destruct Hin. }
  destruct (e_users env) as [err|users].
  { rewrite <- Hsplit in Hin. simpl in Hin.
    repeat (destruct Hin as [<- | Hin]; [discriminate|]). destruct Hin. }
  destruct (e_serial_open env).
  { rewrite <- Hsplit in Hin. simpl in Hin.
    repeat (destruct Hin as [<- | Hin]; [discriminate|]). destruct Hin. }
  destruct (e_listen env) as [|err].
  { rewrite <- Hsplit in Hin. simpl in Hin.
    repeat (destruct Hin as [<- | Hin]; [discriminate|]). destruct Hin. }
  clear Hin. split; [discriminate|]. exists err. split; [reflexivity|].
  cbn [List.app] in Hsplit.
  repeat (destruct pre as [|x pre];
          [injection Hsplit as <- _; discriminate
          |injection Hsplit as <- Hsplit]).
  simpl. tauto.
Qed.

Lemma C3_reader_runs_after_ListenAndServe_returns_witness :
  exists err, In (MListenReturned err)
    [MLog " :: Starting sphincter rfid token..."; MLog " :::: Opening GPIO";
     MPinMode OpenPin true; MPinMode ClosePin true;
     MPinMode StatusPin0 false; MPinMode StatusPin1 false;
     MLog " :::: Reading list.txt"; MLog " :::: Found 1 users ";
     MLog " :::: Connecting to Serial"; MLog " :::: Setting up webserver";
     MHandleFunc "/sphincter"; MListenAndServe ":8001";
     MListenReturned "address already in use"; MLog " :: Initialized!";
     MGo GFramer; MReader 5 (Log "Hello A1B2 Alice")].
Proof.
  pose (env := Build_Env None (inr ({[ "A1B2" := "Alice" ]} : gmap string string)) None
                 (ListenFailed "address already in use")
                 [Framer.ReadData (Framer.frame ["A"; "1"; "B"; "2"]%char)]
                 (fun _ => 5) 0 (fun _ => rpio.Low)).
  assert (Hsplit : main env =
            [MLog " :: Starting sphincter rfid token..."; MLog " :::: Opening GPIO";
             MPinMode OpenPin true; MPinMode ClosePin true;
             MPinMode StatusPin0 false; MPinMode StatusPin1 false;
             MLog " :::: Reading list.txt"; MLog " :::: Found 1 users ";
             MLog " :::: Connecting to Serial"; MLog " :::: Setting up webserver";
             MHandleFunc "/sphincter"; MListenAndServe ":8001";
             MListenReturned "address already in use"; MLog " :: Initialized!";
             MGo GFramer; MReader 5 (Log "Hello A1B2 Alice")]
            ++ MReader 5 (PinHigh OpenPin)
               :: [MReader 5 (Sleep (1 * time.Second));
                   MReader 1000000005 (PinLow OpenPin)])
    by (vm_compute; reflexivity).
  destruct (C3_reader_runs_after_ListenAndServe_returns env _ _ _ Hsplit eq_refl)
    as [_ [err [_ Hin]]].
  exists err. exact Hin.
Defined.

(** ** Goroutines side by side *)

(** What holds of every operation of every goroutine holds of every
    operation of every interleaving. *)
Lemma run_schedule_Forall (P : Op -> Prop) :
  forall (sched : list nat) (threads : list (list Op)),
    Forall (Forall P) threads ->
    Forall (fun e => P (snd e)) (run_schedule threads sched).
Proof.
  induction sched as [|i sched IH]; intros threads Hall; [constructor|].
  cbn [run_schedule].
  destruct (threads !! i) as [[|o prog]|] eqn:E; try (apply IH; exact Hall).
  pose proof (Forall_lookup_1 _ _ _ _ Hall E) as Hprog.
  inversion Hprog as [|? ? Ho Hrest]; subst.
  constructor; [exact Ho|].
  apply IH. apply Forall_insert; assumption.
Qed.

Lemma handler_never_raises_ClosePin (r : Request) :
  Forall (fun o => o <> PinHigh ClosePin) (handler r).
Proof.
  unfold handler.
  destruct (negb (String.eqb (Method r) "GET"));
    [|destruct (String.eqb (action r) "state");
      [|destruct (String.eqb (action r) "unlock");
        [|destruct (String.eqb (action r) "lock")]]];
    repeat constructor; discriminate.
Qed.

(** However the requests are interleaved, no handler drives the Close
    pin High. *)
Lemma handlers_never_raise_ClosePin (reqs : list Request) (sched : list nat) :
  Forall (fun e => snd e <> PinHigh ClosePin) (run_schedule (serve reqs) sched).
Proof.
  apply (run_schedule_Forall (fun o => o <> PinHigh ClosePin)). unfold serve.
  apply List.Forall_forall. intros prog Hin.
  apply List.in_map_iff in Hin as [r [<- _]].
  apply handler_never_raises_ClosePin.
Qed.

(** The executor is one goroutine: the pulses of the commands it
    receives never overlap. *)
Lemma executor_pulses_do_not_overlap (i : nat) (p : rpio.Pin) (cmds : list string) :
  overlapping p [] (map (pair i) (executor cmds)) = false.
Proof.
  assert (H : forall ops inflight,
             forallb (Nat.eqb i) inflight = true ->
             overlapping p inflight (map (pair i) ops) = false).
  { induction ops as [|o ops IH]; intros inflight Hall; [reflexivity|].
    cbn [map overlapping].
    destruct o; try (apply IH; exact Hall).
    - destruct (p0 =? p); [|apply IH; exact Hall].
      rewrite Hall. cbn [negb orb]. apply IH.
      cbn [forallb]. rewrite Nat.eqb_refl. exact Hall.
    - destruct (p0 =? p); [|apply IH; exact Hall].
      apply IH. apply forallb_forall. intros j Hj.
      apply List.filter_In in Hj as [Hj _].
      rewrite forallb_forall in Hall. apply Hall. exact Hj. }
  apply H. reflexivity.
Qed.

(** C1 (as found in the code).  The handler of an unlock request drives
    the Open pin itself, in the goroutine of its request, and [main]
    never starts the executor.  Two unlock requests served side by side
    can interleave so that the second pulse begins before the first is
    over, and the first goroutine's Low ends the pulse of the second
    while the second is still asleep. *)
Theorem C1_handler_pulses_overlap :
  let unlock := {| Method := "GET"; action := "unlock" |} in
  let tr := run_schedule (serve [unlock; unlock]) [0; 0; 1; 1; 0; 0; 1; 1; 0; 1]%nat in
  pin_events tr =
    [(0%nat, PinHigh OpenPin); (1%nat, PinHigh OpenPin);
     (0%nat, PinLow OpenPin); (1%nat, PinLow OpenPin)] /\
  overlapping OpenPin [] tr = true /\
  levels_of OpenPin rpio.Low tr =
    [rpio.Low; rpio.High; rpio.High; rpio.High; rpio.High; rpio.Low;
     rpio.Low; rpio.Low; rpio.Low; rpio.Low] /\
  nth_error tr 6 = Some (1%nat, Sleep (1 * time.Second)) /\
  (forall env e, In e setupSphincterCmdChannel -> ~ In e (main env)).
Proof.
  cbv zeta. repeat (split; [reflexivity|]).
  exact main_never_starts_executor.
Qed.

(* ================================================================== *)
(** * Further properties *)
(* ================================================================== *)

(** ** The list of users *)

Section UserListFacts.

Import UserList.

Lemma append_assoc (a b c : string) : (a +:+ b) +:+ c = a +:+ (b +:+ c).
Proof.
  induction a as [|x a IH]; [reflexivity|].
  rewrite !append_cons, IH. reflexivity.
Qed.

Lemma split_from_app (sep : ascii) (s2 : string) :
  forall s1 cur,
    split_from sep cur (s1 +:+ String sep s2)
    = split_from sep cur s1 ++ split_from sep EmptyString s2.
Proof.
  induction s1 as [|c s1 IH]; intros cur.
  - rewrite append_nil. cbn [split_from]. rewrite Ascii.eqb_refl. reflexivity.
  - rewrite append_cons. cbn [split_from].
    destruct (Ascii.eqb c sep); rewrite IH; reflexivity.
Qed.

Lemma split_from_no_sep (sep : ascii) :
  forall s cur,
    GoStrings.contains_byte sep s = false ->
    split_from sep cur s = [cur +:+ s].
Proof.
  induction s as [|c s IH]; intros cur H.
  - cbn [split_from]. rewrite app_empty_r. reflexivity.
  - cbn [GoStrings.contains_byte] in H. apply orb_false_iff in H as [Hc Hs].
    cbn [split_from]. rewrite Ascii.eqb_sym, Hc, (IH _ Hs), append_assoc.
    reflexivity.
Qed.

Lemma parseUserList_fold (bytes : string) :
  parseUserList bytes = fold_left add_line (Split bytes LF) ∅.
Proof. reflexivity. Qed.

(** The file read line by line: one more line is one more turn of the
    loop. *)
Lemma parseUserList_snoc_line (bytes line : string) :
  GoStrings.contains_byte LF line = false ->
  parseUserList (bytes +:+ String LF line) = add_line (parseUserList bytes) line.
Proof.
  intros H. rewrite !parseUserList_fold. unfold Split.
  rewrite split_from_app, fold_left_app, (split_from_no_sep _ _ _ H), append_nil.
  reflexivity.
Qed.

Lemma no_space_app (a b : string) :
  no_space (a +:+ b) = (no_space a && no_space b)%bool.
Proof.
  induction a as [|c a IH]; [reflexivity|].
  rewrite append_cons. cbn [no_space]. rewrite IH, andb_assoc. reflexivity.
Qed.

Lemma append_not_empty_r (a : string) (c : ascii) : a +:+ String c "" <> "".
Proof. destruct a; discriminate. Qed.

Lemma fields_from_are_fields :
  forall s cur, no_space cur = true -> Forall is_field (fields_from cur s).
Proof.
  induction s as [|c s IH]; intros cur Hcur.
  - cbn [fields_from]. destruct cur; repeat constructor; [discriminate | exact Hcur].
  - cbn [fields_from]. destruct (isSpace c) eqn:E.
    + destruct cur as [|d cur].
      * apply IH. reflexivity.
      * constructor; [split; [discriminate | exact Hcur] | apply IH; reflexivity].
    + apply IH. rewrite no_space_app, Hcur. cbn [no_space]. rewrite E. reflexivity.
Qed.

Lemma Fields_are_fields (s : string) : Forall is_field (Fields s).
Proof. apply fields_from_are_fields. reflexivity. Qed.

Lemma Join_not_empty (f : string) (fs : list string) :
  f <> "" -> Join (f :: fs) " " <> "".
Proof.
  intros Hf. destruct fs as [|g fs]; cbn [Join]; [exact Hf|].
  destruct f; [congruence | discriminate].
Qed.

Lemma add_line_keeps (P : string -> string -> Prop) (users : gmap string string)
    (line : string) :
  (forall key f rest, is_field key -> Forall is_field (f :: rest) ->
                      P key (Join (f :: rest) " ")) ->
  (forall k v, users !! k = Some v -> P k v) ->
  forall k v, add_line users line !! k = Some v -> P k v.
Proof.
  intros Hnew Hold k v. unfold add_line.
  pose proof (Fields_are_fields line) as Hf.
  destruct (Fields line) as [|key [|f rest]]; cbn [length Nat.ltb Nat.leb];
    try (apply Hold).
  inversion Hf as [|? ? Hkey Hrest]; subst.
  destruct (decide (key = k)) as [->|Hne].
  - rewrite lookup_insert_eq. intros [= <-]. apply Hnew; assumption.
  - rewrite lookup_insert_ne by exact Hne. apply Hold.
Qed.

End UserListFacts.

Section UserListProperties.

Import UserList.

Lemma fold_add_line_keeps (P : string -> string -> Prop) :
  (forall key f rest, is_field key -> Forall is_field (f :: rest) ->
                      P key (Join (f :: rest) " ")) ->
  forall (lines : list string) (users : gmap string string),
    (forall k v, users !! k = Some v -> P k v) ->
    forall k v, fold_left add_line lines users !! k = Some v -> P k v.
Proof.
  intros Hnew. induction lines as [|line lines IH]; intros users Hold; [exact Hold|].
  cbn [fold_left]. apply IH. apply add_line_keeps; assumption.
Qed.

(** Every token of the parsed list is non-empty and free of white
    space, and every owner label is non-empty: an empty token, or one
    that holds a blank, is in no list. *)
Theorem parseUserList_entries_are_fields
    (bytes key owner : string)
    (Hlisted : parseUserList bytes !! key = Some owner) :
  key <> "" /\ no_space key = true /\ owner <> "".
Proof.
  rewrite parseUserList_fold in Hlisted.
  refine (fold_add_line_keeps
            (fun k v => k <> "" /\ no_space k = true /\ v <> "")
            _ (Split bytes LF) ∅ _ key owner Hlisted).
  - intros k f rest [Hk1 Hk2] Hrest.
    inversion Hrest as [|? ? [Hf _] _]; subst.
    split; [exact Hk1|]. split; [exact Hk2|]. apply Join_not_empty. exact Hf.
  - intros k v H. rewrite lookup_empty in H. discriminate.
Qed.

Lemma parseUserList_entries_are_fields_witness :
  "A1B2" <> "" /\ no_space "A1B2" = true /\ "Alice B" <> "".
Proof.
  refine (parseUserList_entries_are_fields
            ("A1B2  Alice   B" +:+ String LF "") "A1B2" "Alice B" _).
  vm_compute. reflexivity.
Defined.

(** In a list file of ASCII text: a line with two fields or more, added
    at the end of the file, lists
    its first field with the other fields as owner, joined by single
    blanks; it replaces what the file said of that token before and
    leaves every other token as it was. *)
Theorem parseUserList_append_entry
    (bytes line key f : string) (rest : list string)
    (Hascii : ascii_only (bytes +:+ String LF line) = true)
    (Hline : GoStrings.contains_byte LF line = false)
    (Hfields : Fields line = key :: f :: rest) :
  parseUserList (bytes +:+ String LF line) !! key = Some (Join (f :: rest) " ") /\
  forall k, k <> key ->
    parseUserList (bytes +:+ String LF line) !! k = parseUserList bytes !! k.
Proof.
  rewrite (parseUserList_snoc_line _ _ Hline). unfold add_line. rewrite Hfields.
  cbn [length Nat.ltb Nat.leb]. split.
  - apply lookup_insert_eq.
  - intros k Hk. apply lookup_insert_ne. congruence.
Qed.

Lemma parseUserList_append_entry_witness :
  parseUserList (("A1B2 Alice" +:+ String LF "0000 Bob") +:+ String LF "A1B2   Carol  D")
    !! "A1B2" = Some "Carol D".
Proof.
  refine (proj1 (parseUserList_append_entry
                   ("A1B2 Alice" +:+ String LF "0000 Bob") "A1B2   Carol  D"
                   "A1B2" "Carol" ["D"] _ _ _)); reflexivity.
Defined.

(** In a list file of ASCII text: a line with fewer than two fields (a
    blank line, a token without
    owner, the empty end of a file that ends in a newline) changes
    nothing. *)
Theorem parseUserList_append_short_line
    (bytes line : string)
    (Hascii : ascii_only (bytes +:+ String LF line) = true)
    (Hline : GoStrings.contains_byte LF line = false)
    (Hshort : (length (Fields line) <= 1)%nat) :
  parseUserList (bytes +:+ String LF line) = parseUserList bytes.
Proof.
  rewrite (parseUserList_snoc_line _ _ Hline). unfold add_line.
  destruct (Fields line) as [|key [|f rest]]; cbn [length] in *;
    [reflexivity | reflexivity | lia].
Qed.

Lemma parseUserList_append_short_line_witness :
  parseUserList ("A1B2 Alice" +:+ String LF "  lonely ") = parseUserList "A1B2 Alice".
Proof.
  refine (parseUserList_append_short_line "A1B2 Alice" "  lonely " _ _ _).
  - reflexivity.
  - reflexivity.
  - vm_compute. lia.
Defined.

End UserListProperties.

(** ** [isValid] *)

(** [isValid] accepts a token exactly when one of its characters is
    neither ['0'] nor ['F']; the empty token is not valid. *)
Theorem isValid_iff_other_character (token : string) :
  isValid token = true <->
  exists c, GoStrings.contains_byte c token = true /\ c <> "0"%char /\ c <> "F"%char.
Proof.
  rewrite isValid_only_0F, negb_true_iff.
  induction token as [|d token IH].
  - split; [discriminate | intros [c [H _]]; discriminate].
  - cbn [only_0F GoStrings.contains_byte]. rewrite andb_false_iff, orb_false_iff, IH.
    rewrite !Ascii.eqb_neq. split.
    + intros [[H0 HF] | [c [Hc Hne]]].
      * exists d. rewrite Ascii.eqb_refl. auto.
      * exists c. rewrite Hc, orb_true_r. auto.
    + intros [c [Hc [H0 HF]]]. apply orb_true_iff in Hc as [Hc | Hc].
      * apply Ascii.eqb_eq in Hc. subst d. left. auto.
      * right. exists c. auto.
Qed.

(** ** The framer, read by read *)

Section FramerProperties.

Import GoStrings Framer.

Lemma through_delim_first (delim : ascii) (body tail : list ascii) :
  ~ In delim body ->
  through_delim delim (body ++ delim :: tail) = Some (body ++ [delim]).
Proof.
  induction body as [|b body IH]; intros H.
  - cbn. rewrite Ascii.eqb_refl. reflexivity.
  - cbn [List.app through_delim].
    destruct (Ascii.eqb b delim) eqn:E.
    + apply Ascii.eqb_eq in E. subst. exfalso. apply H. left. reflexivity.
    + rewrite IH; [reflexivity|]. intros Hin. apply H. right. exact Hin.
Qed.

(** A [Read] that returns an end byte makes one token: the bytes before
    the first end byte, start bytes deleted wherever they stand (no
    start byte is asked for).  What the [Read] returned after that end
    byte has no part in this token or in any later one. *)
Theorem getRFIDToken_first_end_byte
    (body tail : list ascii) (port : list ReadResult)
    (Hbody : ~ In ETX body) :
  getRFIDToken (ReadData (body ++ ETX :: tail) :: port) =
  (remove_byte STX (string_of_list_ascii body) :: fst (getRFIDToken port),
   snd (getRFIDToken port)).
Proof.
  rewrite getRFIDToken_unfold. cbn [ReadBytes].
  rewrite (through_delim_first _ _ _ Hbody). cbn [List.app].
  destruct (getRFIDToken port) as [sent stop]. cbn [fst snd].
  rewrite token_of_remove, string_of_list_app_one, remove_byte_app.
  cbn [remove_byte]. rewrite Ascii.eqb_refl, app_empty_r.
  rewrite (remove_absent ETX) by (apply contains_string_of_list; exact Hbody).
  reflexivity.
Qed.

Lemma getRFIDToken_first_end_byte_witness :
  getRFIDToken [ReadData (["x"; STX; "A"; STX; "B"]%char ++ ETX :: ["l"; "o"; "s"; "t"]%char)]
  = (["xAB"], Blocked).
Proof.
  refine (getRFIDToken_first_end_byte ["x"; STX; "A"; STX; "B"]%char
            ["l"; "o"; "s"; "t"]%char [] _).
  vm_compute. intuition discriminate.
Defined.

Lemma getRFIDToken_tokens_clean_witness :
  contains_byte STX "A" = false /\ contains_byte ETX "A" = false.
Proof.
  refine (getRFIDToken_tokens_clean
            [ReadData (frame ["A"%char] ++ frame ["B"%char])] "A" _).
  vm_compute. left. reflexivity.
Defined.

Lemma getRFIDToken_delivered_witness :
  getRFIDToken (port_of [(["A"; "1"]%char, [[STX; "A"%char]; ["1"%char; ETX]]);
                         (["B"]%char, [[STX]; ["B"%char]; [ETX]])])
  = (["A1"; "B"], Blocked).
Proof.
  refine (getRFIDToken_delivered
            [(["A"; "1"]%char, [[STX; "A"%char]; ["1"%char; ETX]]);
             (["B"]%char, [[STX]; ["B"%char]; [ETX]])] _).
  repeat constructor; cbn; try discriminate; intuition discriminate.
Defined.

End FramerProperties.

Lemma updateSphincterStatus_range_witness :
  fst (Monitor.updateSphincterStatus
         (fun (k : nat) (_ : rpio.Pin) => if Nat.even k then rpio.High else rpio.Low)
         (Monitor.mkMon 0 FAILURE))
  = Monitor.sphincterStatus
      (snd (Monitor.updateSphincterStatus
              (fun (k : nat) (_ : rpio.Pin) => if Nat.even k then rpio.High else rpio.Low)
              (Monitor.mkMon 0 FAILURE))) /\
  In (fst (Monitor.updateSphincterStatus
             (fun (k : nat) (_ : rpio.Pin) => if Nat.even k then rpio.High else rpio.Low)
             (Monitor.mkMon 0 FAILURE)))
     [UNKNOWN; LOCKED; UNLOCKED; FAILURE].
Proof.
  refine (updateSphincterStatus_range
            (fun (k : nat) (_ : rpio.Pin) => if Nat.even k then rpio.High else rpio.Low)
            (Monitor.mkMon 0 FAILURE) _).
  vm_compute. tauto.
Defined.

(** ** The executor and the handler, over all inputs *)

Lemma run_app (a b : list Op) (w : World) : run (a ++ b) w = run b (run a w).
Proof. unfold run. apply fold_left_app. Qed.

Lemma run_states_app (a b : list Op) :
  forall w, run_states (a ++ b) w = run_states a w ++ run_states b (run a w).
Proof.
  induction a as [|o a IH]; intros w; [reflexivity|].
  cbn [List.app run_states]. rewrite IH. reflexivity.
Qed.

Lemma sphincterCmd_exclusive (cmd : string) (w : World) :
  level w OpenPin = rpio.Low -> level w ClosePin = rpio.Low ->
  Forall (fun x => ~ (level x OpenPin = rpio.High /\ level x ClosePin = rpio.High))
         (run_states (sphincterCmd cmd) w) /\
  level (run (sphincterCmd cmd) w) OpenPin = rpio.Low /\
  level (run (sphincterCmd cmd) w) ClosePin = rpio.Low /\
  now (run (sphincterCmd cmd) w)
  = now w + (if recognised cmd then 1 * time.Second else 0).
Proof.
  intros HO HC. unfold sphincterCmd, recognised.
  destruct (String.eqb cmd "open"); [|destruct (String.eqb cmd "close")];
    cbn [orb run_states run fold_left exec_op level now];
    unfold set_level, OpenPin, ClosePin in *; cbn [Z.eqb Pos.eqb];
    (split; [repeat (apply List.Forall_cons;
                      [cbn [level Z.eqb Pos.eqb]; rewrite ?HO, ?HC;
                       intros [H1 H2]; discriminate|]);
             apply List.Forall_nil|]);
    (split; [first [reflexivity | exact HO]|]);
    (split; [first [reflexivity | exact HC]|]); lia.
Qed.

(** The executor keeps the two actuator pins apart: started with both
    Low, it never has both High, whatever commands it receives; when it
    has worked them off both are Low again, and it has taken one second
    for each [open] or [close] and no time for any other command. *)
Theorem executor_keeps_pins_apart
    (cmds : list string) (w : World)
    (HO : level w OpenPin = rpio.Low) (HC : level w ClosePin = rpio.Low) :
  Forall (fun x => ~ (level x OpenPin = rpio.High /\ level x ClosePin = rpio.High))
         (run_states (executor cmds) w) /\
  level (run (executor cmds) w) OpenPin = rpio.Low /\
  level (run (executor cmds) w) ClosePin = rpio.Low /\
  now (run (executor cmds) w)
  = now w + Z.of_nat (length (List.filter recognised cmds)) * (1 * time.Second).
Proof.
  revert w HO HC. induction cmds as [|cmd cmds IH]; intros w HO HC.
  - cbn. repeat split; [constructor | assumption | assumption | lia].
  - change (executor (cmd :: cmds)) with (sphincterCmd cmd ++ executor cmds).
    rewrite run_states_app, run_app.
    destruct (sphincterCmd_exclusive cmd w HO HC) as [H1 [H2 [H3 H4]]].
    destruct (IH (run (sphincterCmd cmd) w) H2 H3) as [I1 [I2 [I3 I4]]].
    split; [apply Forall_app; split; assumption|].
    split; [exact I2|]. split; [exact I3|].
    rewrite I4, H4. cbn [List.filter].
    destruct (recognised cmd); cbn [length]; lia.
Qed.

Lemma executor_keeps_pins_apart_witness :
  now (run (executor ["open"; "Open"; "close"; ""])
           (mkWorld 0 (fun _ => rpio.Low) time.zeroTime []))
  = 0 + Z.of_nat (length (List.filter recognised ["open"; "Open"; "close"; ""]))
        * (1 * time.Second).
Proof.
  refine (proj2 (proj2 (proj2
            (executor_keeps_pins_apart ["open"; "Open"; "close"; ""]
               (mkWorld 0 (fun _ => rpio.Low) time.zeroTime []) _ _))));
    reflexivity.
Defined.

(** ** Requests served side by side *)

Lemma handler_drives_OpenPin_only (r : Request) :
  Forall (fun o => forall p, o = PinHigh p \/ o = PinLow p -> p = OpenPin) (handler r).
Proof.
  unfold handler.
  destruct (negb (String.eqb (Method r) "GET"));
    [|destruct (String.eqb (action r) "state");
      [|destruct (String.eqb (action r) "unlock");
        [|destruct (String.eqb (action r) "lock")]]];
    repeat apply List.Forall_cons; try apply List.Forall_nil;
    intros p [H | H]; congruence.
Qed.

(** However the requests in flight are interleaved, the only pin any
    of them drives, High or Low, is the Open pin. *)
Theorem handlers_drive_OpenPin_only (reqs : list Request) (sched : list nat) :
  Forall (fun e => forall p, snd e = PinHigh p \/ snd e = PinLow p -> p = OpenPin)
         (run_schedule (serve reqs) sched).
Proof.
  apply (run_schedule_Forall
           (fun o => forall p, o = PinHigh p \/ o = PinLow p -> p = OpenPin)).
  unfold serve. apply List.Forall_forall. intros prog Hin.
  apply List.in_map_iff in Hin as [r [<- _]].
  apply handler_drives_OpenPin_only.
Qed.

(** ** The start of [main] *)

(** [main] gets as far as [http.ListenAndServe] exactly when
    [rpio.Open], [parseUserList] and [serial.Open] all succeeded. *)
Theorem main_serves_iff_setup_succeeded (env : Env) :
  (exists addr, In (MListenAndServe addr) (main env)) <->
  (e_rpio_open env = None /\ (exists users, e_users env = inr users) /\
   e_serial_open env = None).
Proof.
  unfold main.
  destruct (e_rpio_open env) as [e1|].
  { split; [intros [addr H]; simpl in H; intuition discriminate
           | intros [H _]; discriminate]. }
  destruct (e_users env) as [e2|users].
  { split; [intros [addr H]; simpl in H; intuition discriminate
           | intros [_ [[u H] _]]; discriminate]. }
  destruct (e_serial_open env) as [e3|].
  { split; [intros [addr H]; simpl in H; intuition discriminate
           | intros [_ [_ H]]; discriminate]. }
  split; [intros _; eauto|].
  intros _. exists ":8001". cbn [List.app].
  repeat (first [left; reflexivity | right]).
Qed.

(** When a step of the start fails, [log.Fatal] is the last thing
    [main] does, and before it [main] has only logged and set pin
    modes: no handler is registered, no server and no reader started. *)
Theorem main_fatal_is_last
    (env : Env) (err : string)
    (Hfatal : In (MFatal err) (main env)) :
  exists pre, main env = pre ++ [MFatal err] /\ forallb is_startup_event pre = true.
Proof.
  unfold main in *.
  destruct (e_rpio_open env) as [e1|].
  { simpl in Hfatal. destruct Hfatal as [H | [H | [H | []]]]; try discriminate.
    injection H as ->. rewrite ?List.app_assoc. eexists. split; reflexivity. }
  destruct (e_users env) as [e2|users].
  { simpl in Hfatal.
    repeat (destruct Hfatal as [H | Hfatal]; [try discriminate|]); [|destruct Hfatal].
    injection H as ->. rewrite ?List.app_assoc. eexists. split; reflexivity. }
  destruct (e_serial_open env) as [e3|].
  { simpl in Hfatal.
    repeat (destruct Hfatal as [H | Hfatal]; [try discriminate|]); [|destruct Hfatal].
    injection H as ->. rewrite ?List.app_assoc. eexists. split; reflexivity. }
  exfalso.
  destruct (e_listen env) as [|e4].
  { simpl in Hfatal. intuition discriminate. }
  cbn [List.app] in Hfatal.
  repeat (destruct Hfatal as [H | Hfatal]; [discriminate|]).
  pose proof (reader_events_are_reader env users) as Hall.
  rewrite List.Forall_forall in Hall. specialize (Hall _ Hfatal). discriminate.
Qed.

Lemma main_fatal_is_last_witness :
  exists pre,
    main (Build_Env None (inl "open list.txt: no such file or directory") None Serving
            [] (fun _ => 0) 0 (fun _ => rpio.Low))
    = pre ++ [MFatal "open list.txt: no such file or directory"] /\
    forallb is_startup_event pre = true.
Proof.
  refine (main_fatal_is_last
            (Build_Env None (inl "open list.txt: no such file or directory") None Serving
               [] (fun _ => 0) 0 (fun _ => rpio.Low))
            "open list.txt: no such file or directory" _).
  vm_compute. tauto.
Defined.

(** ** The reader loop, over a whole run *)

Lemma high_times_app (a b : list (Z * Op)) :
  high_times (a ++ b) = high_times a ++ high_times b.
Proof.
  induction a as [|[t o] a IH]; [reflexivity|].
  cbn [List.app high_times]. destruct o; try exact IH.
  destruct (p =? OpenPin); [cbn [List.app]; rewrite IH; reflexivity | exact IH].
Qed.

Lemma pin_ops_app (a b : list (Z * Op)) : pin_ops (a ++ b) = pin_ops a ++ pin_ops b.
Proof. unfold pin_ops. apply List.filter_app. Qed.

Lemma spaced_snoc (d t : Z) :
  forall l, spaced d l -> (forall x, In x l -> x + d <= t) -> spaced d (l ++ [t]).
Proof.
  induction l as [|x l IH]; intros Hs Hle; [cbn; tauto|].
  destruct l as [|y l].
  - cbn. split; [apply Hle; left; reflexivity | tauto].
  - destruct Hs as [Hxy Hs]. cbn [List.app spaced]. split; [exact Hxy|].
    apply IH; [exact Hs | intros z Hz; apply Hle; right; exact Hz].
Qed.

(** The gate compares true elapsed time: saturation of [Sub] does not
    move the five-second threshold. *)
Lemma Sub_threshold (t u : Z) :
  5 * time.Second <= time.Sub t u <-> u + 5 * time.Second <= t.
Proof.
  unfold time.Sub, time.maxDuration, time.minDuration, time.Second.
  change (2 ^ 63) with 9223372036854775808. lia.
Qed.

Lemma trace_pulse (hello : string) (t l : Z) (lv : rpio.Pin -> rpio.State)
    (tr : list (Z * Op)) :
  trace (run [Log hello; PinHigh OpenPin; Sleep (1 * time.Second); PinLow OpenPin]
             (mkWorld t lv l tr))
  = tr ++ [(t, Log hello); (t, PinHigh OpenPin); (t, Sleep (1 * time.Second));
           (t + 1 * time.Second, PinLow OpenPin)].
Proof.
  unfold run. cbn [fold_left exec_op trace now]. rewrite <- !List.app_assoc. reflexivity.
Qed.

(** What the loop keeps true of a world. *)
Lemma reader_iteration_invariant (users : gmap string string) (w : World) (a : Arrival) :
  let w' := reader_iteration users w a in
  (spaced (5 * time.Second) (high_times (trace w)) ->
   (forall x, In x (high_times (trace w)) -> x <= latestTimestamp w) ->
   spaced (5 * time.Second) (high_times (trace w')) /\
   (forall x, In x (high_times (trace w')) -> x <= latestTimestamp w')) /\
  (pin_ops (trace w) = flat_map pulse_at (high_times (trace w)) ->
   pin_ops (trace w') = flat_map pulse_at (high_times (trace w'))) /\
  (level w OpenPin = rpio.Low -> level w' OpenPin = rpio.Low) /\
  (forall p, p <> OpenPin -> level w' p = level w p).
Proof.
  cbv zeta.
  destruct (reader_iteration_cases users w a)
    as [[_ ->] | [[Hge [owner [_ ->]]] | [_ [_ [-> | ->]]]]].
  - unfold run. cbn [fold_left exec_op trace now level latestTimestamp recv].
    rewrite high_times_app, pin_ops_app, List.app_nil_r. cbn [pin_ops List.filter snd is_pin_op].
    rewrite List.app_nil_r. repeat split; auto.
  - rewrite trace_pulse, high_times_app, pin_ops_app.
    cbn [high_times pin_ops List.filter snd is_pin_op].
    replace (OpenPin =? OpenPin) with true by reflexivity.
    unfold run. cbn [fold_left exec_op level latestTimestamp now].
    apply Sub_threshold in Hge.
    split; [|split; [|split]].
    + intros Hs Hle. split.
      * apply spaced_snoc; [exact Hs|]. intros x Hx. specialize (Hle x Hx).
        clear Hs Hx. lia.
      * clear Hs. intros x Hx. apply in_app_or in Hx as [Hx | [<- | []]]; [|lia].
        specialize (Hle x Hx). clear Hx. unfold time.Second in *. lia.
    + intros Hp. rewrite flat_map_app, Hp. reflexivity.
    + intros _. reflexivity.
    + intros p Hp. unfold set_level. apply Z.eqb_neq in Hp. rewrite Hp. reflexivity.
  - unfold run. cbn [fold_left exec_op trace now level latestTimestamp recv].
    rewrite high_times_app, pin_ops_app, List.app_nil_r. cbn [pin_ops List.filter snd is_pin_op].
    rewrite List.app_nil_r. repeat split; auto.
  - cbn [recv trace level latestTimestamp]. repeat split; auto.
Qed.

Lemma reader_loop_invariant (users : gmap string string) :
  forall (arrivals : list Arrival) (w : World),
    spaced (5 * time.Second) (high_times (trace w)) ->
    (forall x, In x (high_times (trace w)) -> x <= latestTimestamp w) ->
    pin_ops (trace w) = flat_map pulse_at (high_times (trace w)) ->
    let w' := reader_loop users arrivals w in
    spaced (5 * time.Second) (high_times (trace w')) /\
    pin_ops (trace w') = flat_map pulse_at (high_times (trace w')) /\
    (level w OpenPin = rpio.Low -> level w' OpenPin = rpio.Low) /\
    (forall p, p <> OpenPin -> level w' p = level w p).
Proof.
  induction arrivals as [|a arrivals IH]; intros w Hs Hle Hp; cbv zeta.
  - cbn. auto.
  - destruct (reader_iteration_invariant users w a) as [H1 [H2 [H3 H4]]].
    destruct (H1 Hs Hle) as [Hs' Hle'].
    destruct (IH (reader_iteration users w a) Hs' Hle' (H2 Hp)) as [I1 [I2 [I3 I4]]].
    change (reader_loop users (a :: arrivals) w)
      with (reader_loop users arrivals (reader_iteration users w a)).
    split; [exact I1|]. split; [exact I2|]. split.
    + intros HO. apply I3, H3, HO.
    + intros p Hp'. rewrite (I4 p Hp'). apply H4. exact Hp'.
Qed.

(** Over a whole run of the reader loop, whatever tokens arrive and
    whenever: two pulses of the Open pin never begin less than five
    seconds apart. *)
Theorem reader_loop_pulses_are_spaced
    (users : gmap string string) (arrivals : list Arrival) (w : World)
    (Hfresh : trace w = []) :
  spaced (5 * time.Second) (high_times (trace (reader_loop users arrivals w))).
Proof.
  apply (reader_loop_invariant users arrivals w); rewrite Hfresh; cbn; tauto.
Qed.

Lemma reader_loop_pulses_are_spaced_witness :
  spaced (5 * time.Second)
    (high_times (trace (reader_loop {[ "A1B2" := "Alice" ]}
       [Build_Arrival "A1B2" (10 * time.Second);
        Build_Arrival "A1B2" (12 * time.Second);
        Build_Arrival "A1B2" (16 * time.Second)]
       (mkWorld 0 (fun _ => rpio.Low) time.zeroTime [])))).
Proof.
  exact (reader_loop_pulses_are_spaced {[ "A1B2" := "Alice" ]}
           [Build_Arrival "A1B2" (10 * time.Second);
            Build_Arrival "A1B2" (12 * time.Second);
            Build_Arrival "A1B2" (16 * time.Second)]
           (mkWorld 0 (fun _ => rpio.Low) time.zeroTime []) eq_refl).
Defined.

(** [latestTimestamp] starts as the zero time, which lies so far back
    that [time.Since] saturates: with the clock at the Unix epoch or
    later, the first token of the list is admitted whenever it comes. *)
Theorem first_listed_token_is_admitted
    (users : gmap string string) (w : World) (a : Arrival) (owner : string)
    (Hzero : latestTimestamp w = time.zeroTime)
    (Hclock : 0 <= now w)
    (Hlisted : users !! a_msg a = Some owner) :
  let w' := reader_iteration users w a in
  time.Sub (now (recv a w)) (latestTimestamp w) = time.maxDuration /\
  latestTimestamp w' = now (recv a w) /\
  pin_ops (added w w') = pulse_at (now (recv a w)).
Proof.
  cbv zeta.
  assert (Hnow : 0 <= now (recv a w)) by (cbn [recv now]; lia).
  assert (Hsat : time.Sub (now (recv a w)) (latestTimestamp w) = time.maxDuration).
  { rewrite Hzero.
    unfold time.Sub, time.maxDuration, time.minDuration, time.zeroTime, time.Second.
    change (2 ^ 63) with 9223372036854775808. lia. }
  split; [exact Hsat|].
  destruct (reader_iteration_cases users w a)
    as [[Hlt _] | [[_ [o [_ ->]]] | [_ [Hnone _]]]].
  - rewrite Hsat in Hlt. unfold time.maxDuration, time.Second in Hlt.
    change (2 ^ 63) with 9223372036854775808 in Hlt. lia.
  - destruct (pulse_effect ("Hello " +:+ a_msg a +:+ " " +:+ o)
                (now (recv a w)) (now (recv a w)) (level w) (trace w) w eq_refl)
      as [Hl [_ Hp]].
    split; [exact Hl | exact Hp].
  - congruence.
Qed.

Lemma first_listed_token_is_admitted_witness :
  latestTimestamp
    (reader_iteration {[ "A1B2" := "Alice" ]}
       (mkWorld 1 (fun _ => rpio.Low) time.zeroTime []) (Build_Arrival "A1B2" 0))
  = 1.
Proof.
  exact (proj1 (proj2 (first_listed_token_is_admitted {[ "A1B2" := "Alice" ]}
                  (mkWorld 1 (fun _ => rpio.Low) time.zeroTime [])
                  (Build_Arrival "A1B2" 0) "Alice" eq_refl
                  ltac:(vm_compute; discriminate) eq_refl))).
Defined.

(** ** Unlock requests side by side *)

(** C8 (as found in the code).  The unlock handler drives the Open pin
    in the goroutine of its request, not through the executor.  With
    two unlock requests in flight, the Low of request 0 comes while
    request 1 is in its dwell: request 1 sleeps with the pin Low.  In
    another interleaving request 0 writes its response while the pin,
    driven High by request 1, is High. *)
Theorem C8_concurrent_unlock_breaks_the_dwell :
  let unlock := {| Method := "GET"; action := "unlock" |} in
  let tr := run_schedule (serve [unlock; unlock]) [0; 0; 1; 1; 0; 0; 1; 1; 0; 1]%nat in
  let tr' := run_schedule (serve [unlock; unlock]) [0; 0; 0; 0; 1; 1; 0]%nat in
  (nth_error tr 3 = Some (1%nat, PinHigh OpenPin) /\
   nth_error tr 5 = Some (0%nat, PinLow OpenPin) /\
   nth_error tr 6 = Some (1%nat, Sleep (1 * time.Second)) /\
   nth_error (levels_of OpenPin rpio.Low tr) 6 = Some rpio.Low /\
   nth_error tr 7 = Some (1%nat, PinLow OpenPin)) /\
  (nth_error tr' 5 = Some (1%nat, PinHigh OpenPin) /\
   nth_error tr' 6 = Some (0%nat, Fprint "UNLOCKED") /\
   nth_error (levels_of OpenPin rpio.Low tr') 6 = Some rpio.High).
Proof. cbv zeta. repeat split. Qed.

(** ** The handler's own operations *)

(** What the handler itself does for a request, whatever runs beside
    it: it writes exactly one response when the method is GET and none
    otherwise, and the response is its last operation; its pin
    operations are the Open pin High, then the Open pin Low, for a GET
    unlock and none for any other request; it sleeps only for a GET
    unlock, and then one second. *)
Theorem handler_operations (r : Request) :
  let get := String.eqb (Method r) "GET" in
  let unlock := (get && String.eqb (action r) "unlock")%bool in
  length (responses (handler r)) = (if get then 1 else 0)%nat /\
  (if get then exists s, last (handler r) = Some (Fprint s)
   else responses (handler r) = []) /\
  List.filter is_pin_op (handler r)
  = (if unlock then [PinHigh OpenPin; PinLow OpenPin] else []) /\
  (forall d, In (Sleep d) (handler r) -> unlock = true /\ d = 1 * time.Second).
Proof.
  cbv zeta. unfold handler.
  destruct (String.eqb (Method r) "GET"); cbn [negb andb].
  2:{ cbn. repeat split; intuition discriminate. }
  destruct (String.eqb (action r) "state") eqn:Es.
  { apply String.eqb_eq in Es. rewrite Es. cbn.
    repeat split; eauto; intuition discriminate. }
  destruct (String.eqb (action r) "unlock").
  { cbn. repeat split; eauto.
    - destruct H as [H | [H | [H | [H | [H | []]]]]]; try discriminate.
      injection H as <-. reflexivity. }
  destruct (String.eqb (action r) "lock"); cbn;
    repeat split; eauto; intuition discriminate.
Qed.

(** ** The reader loop, cut at any point *)

Lemma high_times_pin_ops (tr : list (Z * Op)) : high_times (pin_ops tr) = high_times tr.
Proof.
  induction tr as [|[t o] tr IH]; [reflexivity|].
  unfold pin_ops in *. cbn [List.filter snd].
  destruct o; cbn [is_pin_op high_times]; try exact IH.
  - destruct (p =? OpenPin); [rewrite IH; reflexivity | exact IH].
Qed.

Lemma high_times_pulses (times : list Z) : high_times (flat_map pulse_at times) = times.
Proof.
  induction times as [|t times IH]; [reflexivity|].
  cbn [flat_map pulse_at List.app high_times].
  replace (OpenPin =? OpenPin) with true by reflexivity.
  rewrite IH. reflexivity.
Qed.

(** A beginning of a sequence of whole pulses is a sequence of whole
    pulses, or one followed by the High of the next. *)
Lemma pulses_cut :
  forall (times : list Z) (p q : list (Z * Op)),
    p ++ q = flat_map pulse_at times ->
    (exists done, p = flat_map pulse_at done) \/
    (exists done t, p = flat_map pulse_at done ++ [(t, PinHigh OpenPin)]).
Proof.
  induction times as [|t times IH]; intros p q H.
  - destruct p; [|discriminate]. left. exists []. reflexivity.
  - cbn [flat_map pulse_at List.app] in H.
    destruct p as [|e1 [|e2 p]].
    + left. exists []. reflexivity.
    + injection H as -> _. right. exists [], t. reflexivity.
    + injection H as -> -> H.
      destruct (IH p q H) as [[done ->] | [done [t' ->]]].
      * left. exists (t :: done). reflexivity.
      * right. exists (t :: done), t'. reflexivity.
Qed.

(** The process can end at any point of the loop (the framer's panic
    does that, also between the High and the Low of a pulse).  However
    a run of the reader loop is cut, the pin operations done so far
    are whole pulses of the Open pin, each Low one second after its
    High, followed at most by the High of one pulse that was begun:
    the loop drives no other pin, and a cut leaves at most that one
    pulse open. *)
Theorem reader_loop_cut_leaves_whole_pulses
    (users : gmap string string) (arrivals : list Arrival) (w : World)
    (done rest : list (Z * Op))
    (Hfresh : trace w = [])
    (Hcut : trace (reader_loop users arrivals w) = done ++ rest) :
  pin_ops done = flat_map pulse_at (high_times done) \/
  exists times t,
    high_times done = times ++ [t] /\
    pin_ops done = flat_map pulse_at times ++ [(t, PinHigh OpenPin)].
Proof.
  destruct (reader_loop_invariant users arrivals w) as [_ [Hwhole _]];
    try (rewrite Hfresh; cbn; tauto).
  rewrite Hcut, pin_ops_app in Hwhole.
  destruct (pulses_cut _ _ _ Hwhole) as [[times Hp] | [times [t Hp]]].
  - left. rewrite <- (high_times_pin_ops done), Hp, high_times_pulses. reflexivity.
  - right. exists times, t. split; [|exact Hp].
    rewrite <- (high_times_pin_ops done), Hp, high_times_app, high_times_pulses.
    cbn [high_times]. replace (OpenPin =? OpenPin) with true by reflexivity.
    reflexivity.
Qed.

Lemma reader_loop_cut_leaves_whole_pulses_witness :
  pin_ops [(10000000000, Log "Hello A1B2 Alice"); (10000000000, PinHigh OpenPin)]
  = flat_map pulse_at
      (high_times [(10000000000, Log "Hello A1B2 Alice"); (10000000000, PinHigh OpenPin)])
  \/
  exists times t,
    high_times [(10000000000, Log "Hello A1B2 Alice"); (10000000000, PinHigh OpenPin)]
    = times ++ [t] /\
    pin_ops [(10000000000, Log "Hello A1B2 Alice"); (10000000000, PinHigh OpenPin)]
    = flat_map pulse_at times ++ [(t, PinHigh OpenPin)].
Proof.
  refine (reader_loop_cut_leaves_whole_pulses {[ "A1B2" := "Alice" ]}
            [Build_Arrival "A1B2" (10 * time.Second)]
            (mkWorld 0 (fun _ => rpio.Low) time.zeroTime [])
            [(10000000000, Log "Hello A1B2 Alice"); (10000000000, PinHigh OpenPin)]
            [(10000000000, Sleep (1 * time.Second)); (11000000000, PinLow OpenPin)]
            eq_refl _).
  vm_compute. reflexivity.
Defined.
